(** * rhubarb_bridge: annotated script + speech timings -> animation schedule

    A shallow embedding of [code/rhubarb_bridge.py]: the annotation parser
    [parse_annotated_text], the part of [main] that resolves tags to
    timed events, maps the Rhubarb mouth cues, collapses runs of equal
    values and writes the five sections of the schedule, and the loop
    of [run_vosk] that gathers the timed words.

    Conventions of the model.
    - A Python [str] is a [string]; a character is a code point below 256,
      classified as CPython classifies it there ([str.isspace], regex
      [\s] and [\w], [str.lower]).
    - Counters and indices ([current_word_idx], [l_idx], [p_idx], emotion
      codes, [pose]) are [nat]; the two [last_*_idx] trackers are [Z]
      because they start at the sentinel [-1].
    - A timestamp is a whole number of milliseconds in [Z], the resolution
      at which [f"{t:.3f}"] prints it; the rounding of a binary float to
      three decimals is outside the model.
    - The source appends each event to its section already rendered as
      ["time,category,value"]; here a section holds [event] records and
      [line_of_event] renders them when the lines are needed. The
      compactor works on the rendered lines, as the source does. *)

From Stdlib Require Import List String Ascii Bool Arith ZArith Lia.
From Stdlib Require Import Sorted DecimalString DecimalNat.
Import ListNotations.
Open Scope string_scope.
Open Scope list_scope.
Open Scope nat_scope.

(** ** Characters *)

Module Chars.

Definition code (c : ascii) : nat := nat_of_ascii c.

Definition between (lo hi n : nat) : bool := (lo <=? n) && (n <=? hi).

(** [str.isspace] / regex [\s] on code points below 256:
    TAB..CR, FS..US, SPACE, NEL and NBSP. *)
Definition is_space (c : ascii) : bool :=
  let n := code c in
  between 9 13 n || between 28 32 n || (n =? 133) || (n =? 160).

(** Regex [\w] on code points below 256: alphanumeric (alphabetic, decimal,
    digit or numeric) or the underscore. *)
Definition is_word (c : ascii) : bool :=
  let n := code c in
  between 48 57 n || between 65 90 n || between 97 122 n || (n =? 95)
  || (n =? 170) || (n =? 178) || (n =? 179) || (n =? 181)
  || (n =? 185) || (n =? 186) || between 188 190 n
  || between 192 214 n || between 216 246 n || between 248 255 n.

(** [str.lower] on one code point below 256. *)
Definition lower_char (c : ascii) : ascii :=
  let n := code c in
  if between 65 90 n || (between 192 222 n && negb (n =? 215))
  then ascii_of_nat (n + 32) else c.

Definition newline : ascii := "010"%char.
Definition comma : ascii := ","%char.

End Chars.

(** ** String helpers standing for the Python built-ins the code calls *)

Module Str.

Fixpoint map (f : ascii -> ascii) (s : string) : string :=
  match s with
  | EmptyString => EmptyString
  | String c r => String (f c) (map f r)
  end.

Fixpoint filter (p : ascii -> bool) (s : string) : string :=
  match s with
  | EmptyString => EmptyString
  | String c r => if p c then String c (filter p r) else filter p r
  end.

Fixpoint forallb (p : ascii -> bool) (s : string) : bool :=
  match s with
  | EmptyString => true
  | String c r => p c && forallb p r
  end.

(** [s.lower()] *)
Definition lower (s : string) : string := map Chars.lower_char s.

(** [not s.strip()]: nothing is left once the white space is stripped. *)
Definition is_blank (s : string) : bool := forallb Chars.is_space s.

(** [s.split(sep)] for a one-character separator: always at least one
    field, and a separator at the end opens a last, empty field. *)
Fixpoint split (sep : ascii) (s : string) : list string :=
  match s with
  | EmptyString => [EmptyString]
  | String c r =>
      if Ascii.eqb c sep then EmptyString :: split sep r
      else match split sep r with
           | h :: t => String c h :: t
           | [] => [String c EmptyString]
           end
  end.

(** [sep.join(parts)] *)
Fixpoint join (sep : string) (parts : list string) : string :=
  match parts with
  | [] => EmptyString
  | [p] => p
  | p :: rest => (p ++ sep ++ join sep rest)%string
  end.

(** The longest prefix of characters satisfying [p], and what follows. *)
Fixpoint span (p : ascii -> bool) (s : string) : string * string :=
  match s with
  | EmptyString => (EmptyString, EmptyString)
  | String c r =>
      if p c then let (a, b) := span p r in (String c a, b)
      else (EmptyString, s)
  end.

Definition starts_with (c : ascii) (s : string) : bool :=
  match s with
  | String d _ => Ascii.eqb d c
  | EmptyString => false
  end.

Fixpoint ends_with (c : ascii) (s : string) : bool :=
  match s with
  | EmptyString => false
  | String d EmptyString => Ascii.eqb d c
  | String _ r => ends_with c r
  end.

Fixpoint drop_last (s : string) : string :=
  match s with
  | EmptyString => EmptyString
  | String _ EmptyString => EmptyString
  | String c r => String c (drop_last r)
  end.

(** [s[1:-1]] *)
Definition interior (s : string) : string :=
  match s with
  | EmptyString => EmptyString
  | String _ r => drop_last r
  end.

End Str.

(** ** Dictionaries with string keys *)

Definition dict (V : Type) : Type := list (string * V).

Fixpoint dict_lookup {V : Type} (d : dict V) (k : string) : option V :=
  match d with
  | [] => None
  | (k', v) :: rest => if String.eqb k k' then Some v else dict_lookup rest k
  end.

(** [d.get(k, default)] *)
Definition dict_get {V : Type} (d : dict V) (k : string) (default : V) : V :=
  match dict_lookup d k with
  | Some v => v
  | None => default
  end.

(** [RHUBARB_MAP]: Rhubarb mouth shapes to LazyKH mouth shapes. *)
Definition RHUBARB_MAP : dict string :=
  [ ("A", "m"); ("B", "t"); ("C", "a"); ("D", "a"); ("E", "u");
    ("F", "au"); ("G", "f"); ("H", "y"); ("X", "m") ].

(** ** The annotation parser *)

Inductive tag_kind : Type := emotion_tag | image_tag | image_auto_tag.

(** The tuple [(word_index, type, value, line_index, paragraph_index)]. *)
Record tag : Type := mkTag {
  word_idx : nat;
  tag_type : tag_kind;
  tag_val : nat;
  l_idx : nat;
  p_idx : nat
}.

Definition emotions_map : dict nat :=
  [ ("explain", 0); ("happy", 1); ("sad", 2); ("angry", 3);
    ("confused", 4); ("rq", 5) ].

Module Tokens.

(** One alternative [open [^close]+ close] of the token pattern, tried at
    the head of [s]: the greedy class takes every character up to the
    first [close]; it must take at least one and [close] must follow. *)
Definition match_delimited (opn cls : ascii) (s : string) : option string :=
  match s with
  | String c r =>
      if Ascii.eqb c opn then
        match Str.span (fun d => negb (Ascii.eqb d cls)) r with
        | (String i inner, String _ _) =>
            Some (String c (String i inner ++ String cls EmptyString)%string)
        | _ => None
        end
      else None
  | EmptyString => None
  end.

(** The alternative [\S+]. *)
Definition match_nonspace (s : string) : option string :=
  match Str.span (fun d => negb (Chars.is_space d)) s with
  | (String c run, _) => Some (String c run)
  | _ => None
  end.

(** [<[^>]+>|\[[^\]]+\]|\S+] tried at the head of [s], leftmost
    alternative first. *)
Definition match_token (s : string) : option string :=
  match match_delimited "<" ">" s with
  | Some t => Some t
  | None =>
      match match_delimited "[" "]" s with
      | Some t => Some t
      | None => match_nonspace s
      end
  end.

(** [re.findall]: the pattern is tried at each position from the left; a
    match is recorded and the search resumes just after it. [skip] counts
    the characters of the last match still to be passed over. *)
Fixpoint findall_from (skip : nat) (s : string) : list string :=
  match s with
  | EmptyString => []
  | String _ r =>
      match skip with
      | S k => findall_from k r
      | O =>
          match match_token s with
          | Some t => t :: findall_from (String.length t - 1) r
          | None => findall_from 0 r
          end
      end
  end.

Definition findall (line : string) : list string := findall_from 0 line.

End Tokens.

(** The variables the parser's loops update. *)
Record parser_state : Type := mkParser {
  words : list string;
  tags : list tag;
  current_word_idx : nat;
  current_para_idx : nat
}.

Definition parser_init : parser_state :=
  {| words := []; tags := []; current_word_idx := 0; current_para_idx := 0 |}.

Definition add_tag (st : parser_state) (t : tag) : parser_state :=
  {| words := words st; tags := tags st ++ [t];
     current_word_idx := current_word_idx st;
     current_para_idx := current_para_idx st |}.

(** [re.sub(r'[^\w\s]', '', token)] *)
Definition clean (token : string) : string :=
  Str.filter (fun c => Chars.is_word c || Chars.is_space c) token.

(** The body of [for token in tokens], on line [l]. *)
Definition parse_token (l : nat) (st : parser_state) (token : string)
  : parser_state :=
  if Str.starts_with "<" token && Str.ends_with ">" token then
    let emotion_name := Str.lower (Str.interior token) in
    match dict_lookup emotions_map emotion_name with
    | Some code =>
        add_tag st (mkTag (current_word_idx st) emotion_tag code l
                          (current_para_idx st))
    | None => st
    end
  else if Str.starts_with "[" token && Str.ends_with "]" token then
    add_tag st (mkTag (current_word_idx st) image_tag l l
                      (current_para_idx st))
  else
    let clean_word := clean token in
    match clean_word with
    | EmptyString => st
    | _ =>
        {| words := words st ++ [clean_word]; tags := tags st;
           current_word_idx := S (current_word_idx st);
           current_para_idx := current_para_idx st |}
    end.

(** The body of [for l_idx, line in enumerate(lines)]. *)
Definition parse_line (st : parser_state) (l : nat) (line : string)
  : parser_state :=
  let st1 :=
    if Str.is_blank line && (0 <? l) then
      {| words := words st; tags := tags st;
         current_word_idx := current_word_idx st;
         current_para_idx := S (current_para_idx st) |}
    else st in
  let st2 := fold_left (parse_token l) (Tokens.findall line) st1 in
  add_tag st2 (mkTag (current_word_idx st2) image_auto_tag l l
                     (current_para_idx st2)).

(** [enumerate(lines)] continued from index [l]. *)
Fixpoint parse_lines (st : parser_state) (l : nat) (lines : list string)
  : parser_state :=
  match lines with
  | [] => st
  | line :: rest => parse_lines (parse_line st l line) (S l) rest
  end.

Definition parse_state (text : string) : parser_state :=
  parse_lines parser_init 0 (Str.split Chars.newline text).

Definition parse_annotated_text (text : string) : list string * list tag :=
  let st := parse_state text in (words st, tags st).

(** ** Timing inputs *)

(** One entry of the Vosk result; [start] and [end] in milliseconds. *)
Record timed_word : Type := mkTimed {
  tw_text : string;
  tw_start : Z;
  tw_end : Z
}.

(** One entry of Rhubarb's [mouthCues]. *)
Record mouth_cue : Type := mkCue {
  cue_start : Z;
  cue_value : string
}.

(** ** Events and their rendering *)

Inductive category : Type := paragraph | emotion | image | pose | phoneme.

Inductive value : Type :=
| VNum (n : nat)
| VShape (s : string).

Record event : Type := mkEvent {
  ev_time : Z;
  ev_cat : category;
  ev_val : value
}.

Definition category_name (c : category) : string :=
  match c with
  | paragraph => "paragraph"
  | emotion => "emotion"
  | image => "image"
  | pose => "pose"
  | phoneme => "phoneme"
  end.

(** [str(n)] for a natural number. *)
Definition nat_str (n : nat) : string :=
  NilEmpty.string_of_uint (Nat.to_uint n).

Definition value_str (v : value) : string :=
  match v with
  | VNum n => nat_str n
  | VShape s => s
  end.

(** The fraction of [f"{t:.3f}"]: three digits, zero padded. *)
Definition pad3 (n : nat) : string :=
  ((if (n <? 100)%nat then "0" else "")
   ++ (if (n <? 10)%nat then "0" else "") ++ nat_str n)%string.

(** [f"{t:.3f}"] for [t] given in milliseconds. *)
Definition time_str (ms : Z) : string :=
  let a := Z.abs_nat ms in
  ((if (ms <? 0)%Z then "-" else "") ++ nat_str (a / 1000)%nat ++ "."
   ++ pad3 (a mod 1000)%nat)%string.

(** [f"{time_str},{category},{value}"] *)
Definition line_of_event (e : event) : string :=
  (time_str (ev_time e) ++ "," ++ category_name (ev_cat e) ++ ","
   ++ value_str (ev_val e))%string.

(** ** The timeline resolver: the tag loop of [main] *)

(** [sections] and the three trackers of the loop. *)
Record resolver : Type := mkResolver {
  sec_paragraph : list event;   (* sections[0] *)
  sec_emotion : list event;     (* sections[1] *)
  sec_image : list event;       (* sections[2] *)
  sec_pose : list event;        (* sections[3] *)
  last_l_idx : Z;
  last_p_idx : Z;
  pose_state : nat
}.

Definition baseline (c : category) : event := mkEvent 0 c (VNum 0).

(** The four defaults and the initial trackers; [sections[4]] gets no
    default. *)
Definition resolver_init : resolver :=
  {| sec_paragraph := [baseline paragraph];
     sec_emotion := [baseline emotion];
     sec_image := [baseline image];
     sec_pose := [baseline pose];
     last_l_idx := (-1)%Z;
     last_p_idx := (-1)%Z;
     pose_state := 0 |}.

(** "Find timing": the start of the word the tag points at, else the end
    of the last recognised word, else zero. *)
Definition start_time (vosk_words : list timed_word) (word_idx : nat) : Z :=
  match nth_error vosk_words word_idx with
  | Some w => tw_start w
  | None =>
      match vosk_words with
      | [] => 0%Z
      | w :: ws => tw_end (last ws w)
      end
  end.

Definition on_line_change (t : Z) (l : nat) (st : resolver) : resolver :=
  if negb (Z.of_nat l =? last_l_idx st)%Z then
    let pose' := (pose_state st + 1) mod 5 in
    {| sec_paragraph := sec_paragraph st;
       sec_emotion := sec_emotion st;
       sec_image := sec_image st ++ [mkEvent t image (VNum l)];
       sec_pose := sec_pose st ++ [mkEvent t pose (VNum pose')];
       last_l_idx := Z.of_nat l;
       last_p_idx := last_p_idx st;
       pose_state := pose' |}
  else st.

Definition on_paragraph_change (t : Z) (p : nat) (st : resolver) : resolver :=
  if negb (Z.of_nat p =? last_p_idx st)%Z then
    {| sec_paragraph := sec_paragraph st ++ [mkEvent t paragraph (VNum p)];
       sec_emotion := sec_emotion st;
       sec_image := sec_image st;
       sec_pose := sec_pose st;
       last_l_idx := last_l_idx st;
       last_p_idx := Z.of_nat p;
       pose_state := pose_state st |}
  else st.

(** The body of [for word_idx, tag_type, tag_val, l_idx, p_idx in tags]. *)
Definition resolve_tag (vosk_words : list timed_word) (st : resolver)
  (tg : tag) : resolver :=
  let t := start_time vosk_words (word_idx tg) in
  match tag_type tg with
  | emotion_tag =>
      {| sec_paragraph := sec_paragraph st;
         sec_emotion := sec_emotion st ++ [mkEvent t emotion (VNum (tag_val tg))];
         sec_image := sec_image st;
         sec_pose := sec_pose st;
         last_l_idx := last_l_idx st;
         last_p_idx := last_p_idx st;
         pose_state := pose_state st |}
  | image_tag | image_auto_tag =>
      on_paragraph_change t (p_idx tg) (on_line_change t (l_idx tg) st)
  end.

Definition resolve_tags (vosk_words : list timed_word) (tgs : list tag)
  : resolver :=
  fold_left (resolve_tag vosk_words) tgs resolver_init.

(** ** The phoneme loop of [main] *)

Definition phoneme_event (cue : mouth_cue) : event :=
  mkEvent (cue_start cue) phoneme
          (VShape (dict_get RHUBARB_MAP (cue_value cue) "m")).

Definition phoneme_events (mouthCues : list mouth_cue) : list event :=
  fold_left (fun sec cue => sec ++ [phoneme_event cue]) mouthCues [].

(** [sections] once both loops have run, in the order they are written. *)
Definition raw_sections (tgs : list tag) (vosk_words : list timed_word)
  (mouthCues : list mouth_cue) : list (list event) :=
  let st := resolve_tags vosk_words tgs in
  [ sec_paragraph st; sec_emotion st; sec_image st; sec_pose st;
    phoneme_events mouthCues ].

(** ** The compactor and the writer: the last loop of [main] *)

(** [line.split(',')[-1]] *)
Definition line_value (line : string) : string :=
  last (Str.split Chars.comma line) EmptyString.

(** The inner loop's variables: [unique_lines] and [last_val], [None]
    before the first line. *)
Definition compact_step (acc : list string * option string) (line : string)
  : list string * option string :=
  let (unique_lines, last_val) := acc in
  let val := line_value line in
  match last_val with
  | Some v =>
      if String.eqb val v then acc
      else (unique_lines ++ [line], Some val)
  | None => (unique_lines ++ [line], Some val)
  end.

Definition unique_lines (section_lines : list string) : list string :=
  fst (fold_left compact_step section_lines ([], None)).

Definition nl : string := String Chars.newline EmptyString.

(** What the writer emits for section [i]. *)
Definition write_section (i : nat) (section_lines : list string) : string :=
  (Str.join nl (unique_lines section_lines) ++ nl
   ++ (if (i <? 4)%nat then "SECTION" ++ nl else ""))%string.

Fixpoint write_sections (i : nat) (sections : list (list string)) : string :=
  match sections with
  | [] => EmptyString
  | s :: rest => (write_section i s ++ write_sections (S i) rest)%string
  end.

(** The schedule file [main] writes, from the script and the two timing
    sources. *)
Definition schedule_lines (full_text : string) (vosk_words : list timed_word)
  (mouthCues : list mouth_cue) : list (list string) :=
  map (map line_of_event)
      (raw_sections (snd (parse_annotated_text full_text)) vosk_words
                    mouthCues).

Definition schedule_document (full_text : string)
  (vosk_words : list timed_word) (mouthCues : list mouth_cue) : string :=
  write_sections 0 (schedule_lines full_text vosk_words mouthCues).

(** The five lists of lines once compacted: what the file holds between
    its delimiters. *)
Definition final_lines (full_text : string) (vosk_words : list timed_word)
  (mouthCues : list mouth_cue) : list (list string) :=
  map unique_lines (schedule_lines full_text vosk_words mouthCues).

(** ** The word list of [run_vosk]

    The recognizer loop of [run_vosk] is input and output; its last loop
    is not: it walks the decoded results in order and appends the
    entries of each result that has a ['result'] key. A result is the
    list under that key, or [None] when the key is absent. *)

Definition collect_result {A : Type} (words_with_time : list A)
  (res : option (list A)) : list A :=
  match res with
  | Some ws => fold_left (fun acc w => acc ++ [w]) ws words_with_time
  | None => words_with_time
  end.

Definition collect_words {A : Type} (results : list (option (list A)))
  : list A :=
  fold_left collect_result results [].

(** * Specification-side definitions

    Nothing below is code of the program: these are the notions the
    statements are written with, and the invariants of the proofs. *)

(** ** Compaction on events *)

(** Collapse of consecutive runs, as the specification words it: an item
    is kept when its key differs from the key of the last item kept; the
    first item is always kept. *)
Fixpoint collapse_from {A : Type} (key : A -> string) (prev : string)
  (l : list A) : list A :=
  match l with
  | [] => []
  | x :: r =>
      if String.eqb (key x) prev then collapse_from key prev r
      else x :: collapse_from key (key x) r
  end.

Definition collapse {A : Type} (key : A -> string) (l : list A) : list A :=
  match l with
  | [] => []
  | x :: r => x :: collapse_from key (key x) r
  end.

(** The value of an event as the compactor sees it. *)
Definition ev_key (e : event) : string := value_str (ev_val e).

(** The five event lists once compacted. *)
Definition final_events (full_text : string) (vosk_words : list timed_word)
  (mouthCues : list mouth_cue) : list (list event) :=
  map (collapse ev_key)
      (raw_sections (snd (parse_annotated_text full_text)) vosk_words
                    mouthCues).

(** ** Ordering and values *)

(** No comma in [s]: the value field of a line can be read back. *)
Definition comma_free (s : string) : Prop :=
  Str.forallb (fun c => negb (Ascii.eqb c Chars.comma)) s = true.

(** Non-decreasing in time. *)
Definition time_sorted (evs : list event) : Prop :=
  StronglySorted Z.le (map ev_time evs).

(** No two neighbours of equal value. *)
Definition no_adjacent_equal (evs : list event) : Prop :=
  forall pre a b post, evs = pre ++ a :: b :: post -> ev_val a <> ev_val b.

(** Word timings in speech order: each word starts no earlier than the
    previous one ended (the first no earlier than [from]) and ends no
    earlier than it starts. *)
Fixpoint chronological (from : Z) (ws : list timed_word) : Prop :=
  match ws with
  | [] => True
  | w :: r =>
      (from <= tw_start w)%Z /\ (tw_start w <= tw_end w)%Z
      /\ chronological (tw_end w) r
  end.

(** Tags in reading order: word indices never go back. *)
Fixpoint ascending (lo : nat) (tgs : list tag) : Prop :=
  match tgs with
  | [] => True
  | t :: r => lo <= word_idx t /\ ascending (word_idx t) r
  end.

(** ** Tags and image transitions *)

(** [tag_type == 'image' or tag_type == 'image_auto'] *)
Definition is_image_kind (k : tag_kind) : bool :=
  match k with
  | emotion_tag => false
  | image_tag | image_auto_tag => true
  end.

(** [tag_type == 'emotion'] *)
Definition is_emotion_kind (k : tag_kind) : bool :=
  match k with
  | emotion_tag => true
  | image_tag | image_auto_tag => false
  end.

(** The number of accepted image transitions: how often the line index of
    an image tag differs from the one that triggered last. *)
Fixpoint transitions (last_l : Z) (tgs : list tag) : nat :=
  match tgs with
  | [] => 0
  | t :: r =>
      if is_image_kind (tag_type t) then
        if (Z.of_nat (l_idx t) =? last_l)%Z then transitions last_l r
        else S (transitions (Z.of_nat (l_idx t)) r)
      else transitions last_l r
  end.

(** The phoneme table as the specification lists it. *)
Definition spec_shape (code : string) : string :=
  if String.eqb code "A" then "m"
  else if String.eqb code "B" then "t"
  else if String.eqb code "C" then "a"
  else if String.eqb code "D" then "a"
  else if String.eqb code "E" then "u"
  else if String.eqb code "F" then "au"
  else if String.eqb code "G" then "f"
  else if String.eqb code "H" then "y"
  else if String.eqb code "X" then "m"
  else "m".

(** Each of the four tag-driven sections keeps its default in front. *)
Definition headed (st : resolver) : Prop :=
  (exists r, sec_paragraph st = baseline paragraph :: r)
  /\ (exists r, sec_emotion st = baseline emotion :: r)
  /\ (exists r, sec_image st = baseline image :: r)
  /\ (exists r, sec_pose st = baseline pose :: r).

(** The value field of the event's line is the event's value. *)
Definition renders_value (e : event) : Prop :=
  line_value (line_of_event e) = ev_key e.

(** Every event of the four tag-driven sections renders its value. *)
Definition all_render (st : resolver) : Prop :=
  Forall renders_value (sec_paragraph st)
  /\ Forall renders_value (sec_emotion st)
  /\ Forall renders_value (sec_image st)
  /\ Forall renders_value (sec_pose st).

(** A list that opens with an event at time 0.000. *)
Definition opens_at_zero (sec : list event) : Prop :=
  exists e rest, sec = e :: rest /\ ev_time e = 0%Z.

(** The keys of [RHUBARB_MAP]. *)
Definition rhubarb_codes : list string :=
  ["A"; "B"; "C"; "D"; "E"; "F"; "G"; "H"; "X"].

(** What the resolver maintains between the image and the pose lists:
    they grow together, the [k]-th pose event (the default being the
    0-th) carries [k mod 5] at the time of the [k]-th image event, and
    the pose counter is the last value emitted. *)
Definition pose_inv (st : resolver) : Prop :=
  1 <= List.length (sec_image st)
  /\ pose_state st = (List.length (sec_image st) - 1) mod 5
  /\ map ev_val (sec_pose st)
     = map (fun k => VNum (k mod 5)) (seq 0 (List.length (sec_image st)))
  /\ map ev_time (sec_pose st) = map ev_time (sec_image st).

(** The keys of [emotions_map]. *)
Definition emotion_names : list string :=
  ["explain"; "happy"; "sad"; "angry"; "confused"; "rq"].

(** The characters of [s] all differ from [c]. *)
Definition without (c : ascii) (s : string) : Prop :=
  Str.forallb (fun d => negb (Ascii.eqb d c)) s = true.

(** The file as a function of the compacted lines of each section. *)
Fixpoint emit_sections (i : nat) (kept : list (list string)) : string :=
  match kept with
  | [] => EmptyString
  | s :: rest =>
      (Str.join nl s ++ nl ++ (if (i <? 4)%nat then "SECTION" ++ nl else "")
       ++ emit_sections (S i) rest)%string
  end.

(** The round-trip scenario: two script lines closed by a line break,
    three timed words. *)
Module Scenario.

Definition script : string :=
  ("Hello world" ++ nl ++ "<happy> [lake] More text" ++ nl)%string.

Definition timed : list timed_word :=
  [ mkTimed "hello" 0 500; mkTimed "world" 500 1000;
    mkTimed "more" 1000 1500 ].

End Scenario.

(** A tag a token of line [l] can produce. *)
Definition on_line (l : nat) (t : tag) : Prop :=
  l_idx t = l /\ tag_type t <> image_auto_tag.

(** The tags of [n] consecutive lines from line [l] on: for each line
    the tags of its tokens, then its image_auto tag. *)
Inductive grouped : nat -> nat -> list tag -> Prop :=
| grouped_nil : forall l, grouped l 0 []
| grouped_line : forall l n g w p rest,
    Forall (on_line l) g ->
    grouped (S l) n rest ->
    grouped l (S n) (g ++ mkTag w image_auto_tag l l p :: rest).

(** The line indices of the accepted image transitions, in order. *)
Fixpoint image_values (last_l : Z) (tgs : list tag) : list nat :=
  match tgs with
  | [] => []
  | t :: r =>
      if is_image_kind (tag_type t) then
        if (Z.of_nat (l_idx t) =? last_l)%Z then image_values last_l r
        else l_idx t :: image_values (Z.of_nat (l_idx t)) r
      else image_values last_l r
  end.

(** [tag_type == 'image_auto'] *)
Definition is_auto (t : tag) : bool :=
  match tag_type t with
  | image_auto_tag => true
  | _ => false
  end.

(** The parser's tags are in reading order and none points past the
    current word index. *)
Definition parser_ok (st : parser_state) : Prop :=
  ascending 0 (tags st)
  /\ Forall (fun t => word_idx t <= current_word_idx st) (tags st).

(** The time lookup with the fallback [d] for an empty list, in a form
    that follows the list. *)
Definition clamp (d : Z) (ws : list timed_word) (i : nat) : Z :=
  match nth_error ws i with
  | Some w => tw_start w
  | None => last (map tw_end ws) d
  end.

(** A section sorted by time whose events are no later than [T]. *)
Definition sec_ok (T : Z) (sec : list event) : Prop :=
  StronglySorted Z.le (map ev_time sec)
  /\ Forall (fun e => (ev_time e <= T)%Z) sec.

(** The four tag-driven sections are sorted and no later than [T]. *)
Definition bounded (T : Z) (st : resolver) : Prop :=
  sec_ok T (sec_paragraph st) /\ sec_ok T (sec_emotion st)
  /\ sec_ok T (sec_image st) /\ sec_ok T (sec_pose st).

(** The number of runs of equal line indices, counted from [last_l]. *)
Fixpoint runs (last_l : Z) (ls : list nat) : nat :=
  match ls with
  | [] => 0
  | l :: r =>
      if (Z.of_nat l =? last_l)%Z then runs last_l r
      else S (runs (Z.of_nat l) r)
  end.

(** ** Notions for the further properties *)

(** What a token of the pattern looks like: an angle tag, a square tag,
    or a run without white space. *)
Definition token_shape (t : string) : Prop :=
  Str.starts_with "<" t && Str.ends_with ">" t = true
  \/ Str.starts_with "[" t && Str.ends_with "]" t = true
  \/ Str.forallb (fun c => negb (Chars.is_space c)) t = true.

(** A cleaned word: not empty, word characters only. *)
Definition clean_word (w : string) : Prop :=
  w <> EmptyString /\ Str.forallb Chars.is_word w = true.

(** The number of blank lines after the first one. *)
Definition blank_count (lines : list string) : nat :=
  List.length (filter Str.is_blank (tl lines)).

(** The number of blank lines among lines 1 to [l]. *)
Definition blank_upto (lines : list string) (l : nat) : nat :=
  blank_count (firstn (S l) lines).

(** The value a tag of its kind carries: an emotion code of the table,
    or the line index. *)
Definition tag_value_ok (t : tag) : Prop :=
  match tag_type t with
  | emotion_tag => tag_val t <= 5
  | image_tag | image_auto_tag => tag_val t = l_idx t
  end.

(** The words one token contributes. *)
Definition token_words (tok : string) : list string :=
  words (parse_token 0 parser_init tok).

(** The words of one line. *)
Definition line_words (line : string) : list string :=
  List.concat (map token_words (Tokens.findall line)).

(** The paragraph indices of the accepted paragraph changes, in order. *)
Fixpoint para_values (last_p : Z) (tgs : list tag) : list nat :=
  match tgs with
  | [] => []
  | t :: r =>
      if is_image_kind (tag_type t) then
        if (Z.of_nat (p_idx t) =? last_p)%Z then para_values last_p r
        else p_idx t :: para_values (Z.of_nat (p_idx t)) r
      else para_values last_p r
  end.

(** The tags of consecutive lines seen through their paragraph index:
    every tag of a line carries the line's paragraph, which is the one
    before or the next one; [last_p] is the paragraph before the first
    line and the third argument the paragraph of the last line. *)
Inductive paragraphs : Z -> list tag -> Z -> Prop :=
| paragraphs_nil : forall last_p, paragraphs last_p [] last_p
| paragraphs_line : forall last_p p g w v l rest fin,
    (Z.of_nat p = last_p \/ Z.of_nat p = last_p + 1)%Z ->
    Forall (fun t => p_idx t = p) g ->
    paragraphs (Z.of_nat p) rest fin ->
    paragraphs last_p (g ++ mkTag w image_auto_tag v l p :: rest) fin.

(** The paragraph tracker a resolver would hold before line [l] of a
    parse in state [st]: the sentinel before the first line. *)
Definition para_before (st : parser_state) (l : nat) : Z :=
  (Z.of_nat (current_para_idx st) - (if (l =? 0)%nat then 1 else 0))%Z.

(** The rows a reader gets for one written section: its lines, or one
    empty row when the section has none. *)
Definition rows (kept : list string) : list string :=
  match kept with
  | [] => [EmptyString]
  | _ => kept
  end.

(** The rows a reader gets by splitting the written file at its line
    breaks: the rows of each section, a SECTION row after each of the
    first four, and the empty row after the last line break. *)
Fixpoint document_rows (i : nat) (kept : list (list string)) : list string :=
  match kept with
  | [] => [EmptyString]
  | s :: rest =>
      rows s ++ (if (i <? 4)%nat then ["SECTION"] else [])
        ++ document_rows (S i) rest
  end.

(** A line that can be told from a delimiter and holds no line break. *)
Definition plain_line (line : string) : Prop :=
  line <> "SECTION" /\ without Chars.newline line.

(** The tokens that become words: neither angle nor square bracketed,
    and something is left of them once cleaned. *)
Definition is_word_token (tok : string) : bool :=
  negb (Str.starts_with "<" tok && Str.ends_with ">" tok)
  && negb (Str.starts_with "[" tok && Str.ends_with "]" tok)
  && negb (String.eqb (clean tok) EmptyString).

(** What the parser keeps true of its state. *)
Definition words_ok (st : parser_state) : Prop :=
  current_word_idx st = List.length (words st)
  /\ Forall clean_word (words st).

Definition all_plain (st : resolver) : Prop :=
  Forall (fun e => plain_line (line_of_event e)) (sec_paragraph st)
  /\ Forall (fun e => plain_line (line_of_event e)) (sec_emotion st)
  /\ Forall (fun e => plain_line (line_of_event e)) (sec_image st)
  /\ Forall (fun e => plain_line (line_of_event e)) (sec_pose st).

(** The number an event carries (0 for a mouth shape). *)
Definition event_num (e : event) : nat :=
  match ev_val e with
  | VNum k => k
  | VShape _ => 0
  end.

(** * Lemmas *)

(** ** Lists and strings *)

Section ListFacts.
Context {A B : Type}.

Lemma fold_left_snoc (f : B -> A) (l : list B) (acc : list A) :
  fold_left (fun sec x => sec ++ [f x]) l acc = acc ++ map f l.
Proof.
  revert acc; induction l as [|x l IH]; intros acc; simpl.
  - now rewrite app_nil_r.
  - rewrite IH, <- app_assoc. reflexivity.
Qed.

Lemma last_app_nonempty (l1 l2 : list A) (d : A) :
  l2 <> [] -> last (l1 ++ l2) d = last l2 d.
Proof.
  intros Hne; induction l1 as [|x l1 IH]; simpl; [reflexivity|].
  rewrite IH. destruct (l1 ++ l2) eqn:E; [|reflexivity].
  apply app_eq_nil in E. tauto.
Qed.

Lemma last_cons_default (l : list A) (x d : A) :
  last (x :: l) d = last l x.
Proof.
  revert x d; induction l as [|y l IH]; intros x d; [reflexivity|].
  change (last (x :: y :: l) d) with (last (y :: l) d).
  now rewrite (IH y d), (IH y x).
Qed.

End ListFacts.

Lemma append_assoc (a b c : string) :
  ((a ++ b) ++ c = a ++ (b ++ c))%string.
Proof. induction a as [|x a IH]; simpl; [reflexivity|now rewrite IH]. Qed.

Lemma split_nonempty sep s : Str.split sep s <> [].
Proof.
  destruct s as [|c r]; simpl; [discriminate|].
  destruct (Ascii.eqb c sep); [discriminate|].
  destruct (Str.split sep r); discriminate.
Qed.

Lemma split_append sep a v :
  Str.split sep (a ++ String sep v) = Str.split sep a ++ Str.split sep v.
Proof.
  induction a as [|c a IH]; simpl.
  - now rewrite Ascii.eqb_refl.
  - rewrite IH. destruct (Ascii.eqb c sep); [reflexivity|].
    destruct (Str.split sep a) eqn:E; [|reflexivity].
    now apply split_nonempty in E.
Qed.

Lemma split_without sep v :
  Str.forallb (fun c => negb (Ascii.eqb c sep)) v = true ->
  Str.split sep v = [v].
Proof.
  induction v as [|c v IH]; simpl; [reflexivity|].
  intros H. apply andb_prop in H. destruct H as [Hc Hv].
  apply negb_true_iff in Hc. rewrite Hc, (IH Hv). reflexivity.
Qed.

Lemma line_value_append pre v :
  comma_free v -> line_value (pre ++ String Chars.comma v) = v.
Proof.
  intros Hv. unfold line_value.
  rewrite split_append, last_app_nonempty by apply split_nonempty.
  now rewrite (split_without _ _ Hv).
Qed.

Lemma forallb_append p a b :
  Str.forallb p (a ++ b) = Str.forallb p a && Str.forallb p b.
Proof.
  induction a as [|c a IH]; simpl; [reflexivity|].
  now rewrite IH, andb_assoc.
Qed.

Lemma uint_comma_free d : comma_free (NilEmpty.string_of_uint d).
Proof. unfold comma_free. induction d; simpl; auto. Qed.

Lemma nat_str_comma_free n : comma_free (nat_str n).
Proof. apply uint_comma_free. Qed.

Lemma nat_str_inj n m : nat_str n = nat_str m -> n = m.
Proof.
  unfold nat_str. intros H.
  apply DecimalNat.Unsigned.to_uint_inj.
  assert (E : Some (Nat.to_uint n) = Some (Nat.to_uint m)).
  { rewrite <- !NilEmpty.usu. now rewrite H. }
  now injection E.
Qed.

Lemma line_value_event e :
  comma_free (ev_key e) -> line_value (line_of_event e) = ev_key e.
Proof.
  intros H. unfold line_of_event.
  change ("," ++ category_name (ev_cat e) ++ "," ++ value_str (ev_val e))%string
    with (String Chars.comma
            (category_name (ev_cat e) ++ String Chars.comma (ev_key e)))%string.
  set (t := time_str (ev_time e)).
  replace (t ++ String Chars.comma
             (category_name (ev_cat e) ++ String Chars.comma (ev_key e)))%string
    with ((t ++ String Chars.comma (category_name (ev_cat e)))
            ++ String Chars.comma (ev_key e))%string.
  - now apply line_value_append.
  - rewrite append_assoc. reflexivity.
Qed.

(** ** The compactor *)

Lemma compact_fold_some ls : forall acc v,
  fst (fold_left compact_step ls (acc, Some v))
  = acc ++ collapse_from line_value v ls.
Proof.
  induction ls as [|x ls IH]; intros acc v; simpl.
  - now rewrite app_nil_r.
  - destruct (String.eqb (line_value x) v).
    + apply IH.
    + rewrite IH, <- app_assoc. reflexivity.
Qed.

Lemma unique_lines_collapse ls : unique_lines ls = collapse line_value ls.
Proof.
  destruct ls as [|x ls]; [reflexivity|].
  unfold unique_lines. simpl. now rewrite compact_fold_some.
Qed.

Lemma collapse_from_map {A B : Type} (f : A -> B) (kb : B -> string)
  (ka : A -> string) (l : list A) :
  Forall (fun x => kb (f x) = ka x) l ->
  forall prev,
    collapse_from kb prev (map f l) = map f (collapse_from ka prev l).
Proof.
  induction 1 as [|x l Hx _ IH]; intros prev; simpl; [reflexivity|].
  rewrite Hx. destruct (String.eqb (ka x) prev); [apply IH|].
  simpl. now rewrite IH.
Qed.

Lemma collapse_map {A B : Type} (f : A -> B) (kb : B -> string)
  (ka : A -> string) (l : list A) :
  Forall (fun x => kb (f x) = ka x) l ->
  collapse kb (map f l) = map f (collapse ka l).
Proof.
  intros H. destruct H as [|x l Hx Hl]; simpl; [reflexivity|].
  rewrite Hx. f_equal. now apply collapse_from_map.
Qed.

Lemma collapse_from_Forall {A : Type} (key : A -> string) (P : A -> Prop)
  (l : list A) :
  Forall P l -> forall prev, Forall P (collapse_from key prev l).
Proof.
  induction 1 as [|x l Hx _ IH]; intros prev; simpl; [constructor|].
  destruct (String.eqb (key x) prev); [apply IH|].
  constructor; [assumption|apply IH].
Qed.

Lemma collapse_from_sorted {A : Type} (key : A -> string) (f : A -> Z)
  (l : list A) :
  StronglySorted Z.le (map f l) ->
  forall prev, StronglySorted Z.le (map f (collapse_from key prev l)).
Proof.
  induction l as [|x l IH]; intros Hs prev; simpl; [constructor|].
  simpl in Hs. apply StronglySorted_inv in Hs. destruct Hs as [Hl Hx].
  destruct (String.eqb (key x) prev); [now apply IH|].
  simpl. constructor; [now apply IH|].
  rewrite Forall_map in *. now apply collapse_from_Forall.
Qed.

Lemma collapse_sorted {A : Type} (key : A -> string) (f : A -> Z)
  (l : list A) :
  StronglySorted Z.le (map f l) -> StronglySorted Z.le (map f (collapse key l)).
Proof.
  destruct l as [|x l]; simpl; intros Hs; [constructor|].
  apply StronglySorted_inv in Hs. destruct Hs as [Hl Hx].
  constructor; [now apply collapse_from_sorted|].
  rewrite Forall_map in *. now apply collapse_from_Forall.
Qed.

Lemma collapse_from_head {A : Type} (key : A -> string) (l : list A) :
  forall prev b post, collapse_from key prev l = b :: post -> key b <> prev.
Proof.
  induction l as [|x l IH]; intros prev b post; simpl; [discriminate|].
  destruct (String.eqb (key x) prev) eqn:E; [apply IH|].
  intros H. injection H as Hb _. subst b. now apply String.eqb_neq.
Qed.

(** Neighbours in a collapsed list have different keys. *)
Lemma collapse_from_adjacent {A : Type} (key : A -> string) (l : list A) :
  forall prev pre a b post,
    collapse_from key prev l = pre ++ a :: b :: post -> key a <> key b.
Proof.
  induction l as [|x l IH]; intros prev pre a b post; simpl.
  - destruct pre; discriminate.
  - destruct (String.eqb (key x) prev); [apply IH|].
    destruct pre as [|p pre]; simpl; intros E; injection E as Ea Er.
    + subst x. apply collapse_from_head in Er. congruence.
    + now apply IH in Er.
Qed.

Lemma collapse_adjacent {A : Type} (key : A -> string) (l : list A) :
  forall pre a b post,
    collapse key l = pre ++ a :: b :: post -> key a <> key b.
Proof.
  destruct l as [|x l]; intros pre a b post; simpl.
  - destruct pre; discriminate.
  - destruct pre as [|p pre]; simpl; intros E; injection E as Ea Er.
    + subst x. apply collapse_from_head in Er. congruence.
    + now apply collapse_from_adjacent in Er.
Qed.

(** ** The resolver *)

Lemma resolve_tags_ind (P : resolver -> Prop) vosk_words :
  P resolver_init ->
  (forall st tg, P st -> P (resolve_tag vosk_words st tg)) ->
  forall tgs, P (resolve_tags vosk_words tgs).
Proof.
  intros H0 Hstep tgs. unfold resolve_tags.
  generalize resolver_init H0.
  induction tgs as [|tg tgs IH]; intros st Hst; simpl; [assumption|].
  apply IH. now apply Hstep.
Qed.

Ltac step_cases :=
  unfold resolve_tag, on_paragraph_change, on_line_change;
  repeat match goal with
         | |- context [match tag_type ?t with _ => _ end] =>
             destruct (tag_type t)
         | |- context [Z.eqb ?a ?b] => destruct (Z.eqb a b)
         end;
  cbn [negb sec_paragraph sec_emotion sec_image sec_pose last_l_idx
       last_p_idx pose_state].

Lemma resolve_tags_headed vosk_words tgs :
  headed (resolve_tags vosk_words tgs).
Proof.
  apply resolve_tags_ind.
  - repeat split; eexists; reflexivity.
  - intros st tg ([rp Hp] & [re He] & [ri Hi] & [ro Ho]).
    unfold headed. step_cases; rewrite ?Hp, ?He, ?Hi, ?Ho; simpl;
      repeat split; eexists; reflexivity.
Qed.

Lemma renders_num t c n : renders_value (mkEvent t c (VNum n)).
Proof. apply line_value_event. apply nat_str_comma_free. Qed.

Lemma resolve_tags_render vosk_words tgs :
  all_render (resolve_tags vosk_words tgs).
Proof.
  apply resolve_tags_ind.
  - repeat split; repeat constructor; apply renders_num.
  - intros st tg (Hp & He & Hi & Ho). unfold all_render.
    step_cases; repeat split;
      try assumption; apply Forall_app; split; try assumption;
      repeat constructor; apply renders_num.
Qed.

(** ** The phoneme pass *)

Lemma phoneme_events_map mouthCues :
  phoneme_events mouthCues = map phoneme_event mouthCues.
Proof. unfold phoneme_events. now rewrite fold_left_snoc. Qed.

Lemma rhubarb_shape_spec code :
  dict_get RHUBARB_MAP code "m" = spec_shape code.
Proof.
  unfold dict_get, spec_shape, RHUBARB_MAP. simpl.
  repeat match goal with
         | |- context [String.eqb code ?k] => destruct (String.eqb code k)
         end; reflexivity.
Qed.

Lemma spec_shape_comma_free code : comma_free (spec_shape code).
Proof.
  unfold spec_shape.
  repeat match goal with
         | |- context [String.eqb code ?k] => destruct (String.eqb code k)
         end; reflexivity.
Qed.

Lemma renders_phoneme cue : renders_value (phoneme_event cue).
Proof.
  apply line_value_event. unfold ev_key, phoneme_event. simpl.
  rewrite rhubarb_shape_spec. apply spec_shape_comma_free.
Qed.

(** ** From the written lines back to the events *)

Lemma unique_lines_events evs :
  Forall renders_value evs ->
  unique_lines (map line_of_event evs)
  = map line_of_event (collapse ev_key evs).
Proof.
  intros H. rewrite unique_lines_collapse. now apply collapse_map.
Qed.

Lemma final_lines_events full_text vosk_words mouthCues :
  final_lines full_text vosk_words mouthCues
  = map (map line_of_event) (final_events full_text vosk_words mouthCues).
Proof.
  unfold final_lines, final_events, schedule_lines, raw_sections.
  generalize (snd (parse_annotated_text full_text)). intros tgs.
  destruct (resolve_tags_render vosk_words tgs) as (Hp & He & Hi & Ho).
  cbn [map]. rewrite !unique_lines_events; try assumption; [reflexivity|].
  rewrite phoneme_events_map, Forall_map.
  apply Forall_forall. intros cue _. apply renders_phoneme.
Qed.

Lemma last_map_default {A B : Type} (f : A -> B) (l : list A) (d : A) :
  last (map f l) (f d) = f (last l d).
Proof.
  induction l as [|x l IH]; [reflexivity|].
  simpl. destruct l; [reflexivity|exact IH].
Qed.

Lemma collapse_from_snoc {A : Type} (key : A -> string) (l : list A) (x : A) :
  forall prev,
    collapse_from key prev (l ++ [x])
    = collapse_from key prev l
      ++ (if String.eqb (key x)
                        (last (map key (collapse_from key prev l)) prev)
          then [] else [x]).
Proof.
  induction l as [|y l IH]; intros prev; simpl.
  - destruct (String.eqb (key x) prev); reflexivity.
  - destruct (String.eqb (key y) prev); [apply IH|].
    rewrite IH. cbn [map]. rewrite last_cons_default. reflexivity.
Qed.

Lemma collapse_snoc {A : Type} (key : A -> string) (y : A) (l : list A)
  (x : A) :
  collapse key (y :: l ++ [x])
  = collapse key (y :: l)
    ++ (if String.eqb (key x) (key (last (collapse key (y :: l)) y))
        then [] else [x]).
Proof.
  unfold collapse. rewrite collapse_from_snoc, <- app_comm_cons.
  now rewrite last_cons_default, last_map_default.
Qed.

(** * The claims *)

(** ** C1 *)

(** Claim C1, as the code has it: in the finalized schedule the paragraph,
    emotion, image and pose lists each begin with the default event of
    their category, at time 0.000 with value 0, whatever the script, the
    word timings and the cues are. The phoneme list gets no default: it
    is the collapsed list of the cue events and nothing else. The lines
    written to the file are the renderings of these events. *)
Theorem baseline_heads_four_sections (full_text : string)
  (vosk_words : list timed_word) (mouthCues : list mouth_cue) :
  (exists p e i po,
     final_events full_text vosk_words mouthCues
     = [ baseline paragraph :: p; baseline emotion :: e;
         baseline image :: i; baseline pose :: po;
         collapse ev_key (map phoneme_event mouthCues) ])
  /\ final_lines full_text vosk_words mouthCues
     = map (map line_of_event) (final_events full_text vosk_words mouthCues)
  /\ map line_of_event (map baseline [paragraph; emotion; image; pose])
     = [ "0.000,paragraph,0"; "0.000,emotion,0"; "0.000,image,0";
         "0.000,pose,0" ].
Proof.
  split; [|split; [apply final_lines_events|reflexivity]].
  unfold final_events, raw_sections.
  generalize (snd (parse_annotated_text full_text)). intros tgs.
  destruct (resolve_tags_headed vosk_words tgs)
    as ([p Hp] & [e He] & [i Hi] & [po Ho]).
  cbn [map]. rewrite Hp, He, Hi, Ho, phoneme_events_map.
  unfold collapse at 1 2 3 4. repeat eexists.
Qed.

(** Claim C1 as stated fails for the phoneme list: without cues it is
    empty, and with a first cue at 0.250 it opens at 0.250. *)
Lemma phoneme_section_has_no_baseline :
  ~ Forall opens_at_zero (final_events "" [] [])
  /\ ~ Forall opens_at_zero (final_events "" [] [mkCue 250 "C"])
  /\ nth 4 (final_lines "" [] [mkCue 250 "C"]) [] = ["0.250,phoneme,a"].
Proof.
  repeat split.
  - intros H. vm_compute in H.
    do 4 (apply Forall_inv_tail in H). apply Forall_inv in H.
    destruct H as (e & rest & E & _). discriminate.
  - intros H. vm_compute in H.
    do 4 (apply Forall_inv_tail in H). apply Forall_inv in H.
    destruct H as (e & rest & E & T). injection E as E _. subst e.
    discriminate.
Qed.

(** ** C7 *)

(** Claim C7: the phoneme pass turns the cues, in order, into as many
    phoneme events, each at its cue's own timestamp and carrying the
    shape the table gives for the cue's code: A->m, B->t, C->a, D->a,
    E->u, F->au, G->f, H->y, X->m, and m for every code outside the
    table. The pass is a total function: no code makes it fail. *)
Theorem phoneme_pass_maps_each_cue (mouthCues : list mouth_cue) :
  List.length (phoneme_events mouthCues) = List.length mouthCues
  /\ (forall k cue,
        nth_error mouthCues k = Some cue ->
        nth_error (phoneme_events mouthCues) k
        = Some (mkEvent (cue_start cue) phoneme
                        (VShape (dict_get RHUBARB_MAP (cue_value cue) "m"))))
  /\ map (fun code => dict_get RHUBARB_MAP code "m") rhubarb_codes
     = ["m"; "t"; "a"; "a"; "u"; "au"; "f"; "y"; "m"]
  /\ (forall code, ~ In code rhubarb_codes ->
                   dict_get RHUBARB_MAP code "m" = "m")
  /\ (forall code, dict_get RHUBARB_MAP code "m" = spec_shape code).
Proof.
  rewrite phoneme_events_map. repeat split.
  - apply length_map.
  - intros k cue H. now rewrite nth_error_map, H.
  - intros code Hout. unfold dict_get, RHUBARB_MAP. simpl.
    repeat match goal with
           | |- context [String.eqb code ?k] =>
               destruct (String.eqb_spec code k);
               [exfalso; apply Hout; subst code; simpl; tauto|]
           end.
    reflexivity.
  - apply rhubarb_shape_spec.
Qed.

Lemma phoneme_pass_maps_each_cue_witness :
  nth_error (phoneme_events [mkCue 0 "X"; mkCue 120 "F"; mkCue 300 "Q"]) 2
  = Some (mkEvent 300 phoneme (VShape "m"))
  /\ dict_get RHUBARB_MAP "Q" "m" = "m".
Proof.
  destruct (phoneme_pass_maps_each_cue
              [mkCue 0 "X"; mkCue 120 "F"; mkCue 300 "Q"])
    as (_ & Hnth & _ & Hout & _).
  split.
  - rewrite (Hnth 2 (mkCue 300 "Q") eq_refl). reflexivity.
  - apply Hout. simpl. intuition discriminate.
Defined.

(** ** C8 *)

(** Claim C8: the compactor scans a section's lines in order; the first
    line is always kept, and each later line is kept exactly when its
    value field differs from the value field of the last line kept so
    far. For an event the value field is the event's value. It is a
    collapse of consecutive runs (the one the specification describes),
    not a set dedup: a value displaced by another one is kept again when
    it comes back. *)
Theorem compactor_collapses_runs :
  unique_lines [] = []
  /\ (forall y rest, exists kept, unique_lines (y :: rest) = y :: kept)
  /\ (forall y rest x,
        unique_lines (y :: rest ++ [x])
        = unique_lines (y :: rest)
          ++ (if String.eqb (line_value x)
                            (line_value (last (unique_lines (y :: rest)) y))
              then [] else [x]))
  /\ (forall section_lines,
        unique_lines section_lines = collapse line_value section_lines)
  /\ (forall t c n,
        line_value (line_of_event (mkEvent t c (VNum n))) = nat_str n)
  /\ (forall cue,
        line_value (line_of_event (phoneme_event cue))
        = dict_get RHUBARB_MAP (cue_value cue) "m")
  /\ (forall a b,
        line_value a <> line_value b ->
        unique_lines [a; b; a] = [a; b; a]
        /\ unique_lines [a; a; b] = [a; b]).
Proof.
  split; [reflexivity|].
  split.
  { intros y rest. rewrite unique_lines_collapse. simpl. eauto. }
  split.
  { intros y rest x. rewrite !unique_lines_collapse. apply collapse_snoc. }
  split; [apply unique_lines_collapse|].
  split; [intros; apply renders_num|].
  split; [intros; apply renders_phoneme|].
  intros a b Hab. rewrite !unique_lines_collapse. simpl.
  rewrite String.eqb_refl.
  apply String.eqb_neq in Hab. rewrite Hab.
  rewrite String.eqb_sym, Hab. now split.
Qed.

Lemma compactor_collapses_runs_witness :
  unique_lines ["0.000,pose,0"; "1.000,pose,1"; "0.000,pose,0"]
  = ["0.000,pose,0"; "1.000,pose,1"; "0.000,pose,0"]
  /\ unique_lines ["0.000,pose,0"; "0.000,pose,0"; "1.000,pose,1"]
     = ["0.000,pose,0"; "1.000,pose,1"].
Proof.
  destruct compactor_collapses_runs as (_ & _ & _ & _ & _ & _ & H).
  apply (H "0.000,pose,0" "1.000,pose,1")%string.
  vm_compute. discriminate.
Defined.

(** ** C3 *)

Lemma nth_error_last_none {A : Type} (init : list A) (w : A) (i : nat) :
  List.length (init ++ [w]) <= i -> nth_error (init ++ [w]) i = None.
Proof. intros H. now apply nth_error_None. Qed.

(** Claim C3: the time given to a tag with word index [i] is the start
    of the [i]-th timed word when there is one ([i < len]); otherwise the
    end of the last timed word when the list is not empty; otherwise
    0.000. Every event the resolver appends for the tag carries that
    time. *)
Theorem tag_time_lookup (vosk_words : list timed_word) (st : resolver)
  (tg : tag) :
  let i := word_idx tg in
  let t := start_time vosk_words i in
  (i < List.length vosk_words ->
   exists w, nth_error vosk_words i = Some w /\ t = tw_start w)
  /\ (forall init w,
        vosk_words = init ++ [w] -> List.length vosk_words <= i ->
        t = tw_end w)
  /\ (vosk_words = [] -> t = 0%Z)
  /\ exists np ne ni npo,
       sec_paragraph (resolve_tag vosk_words st tg) = sec_paragraph st ++ np
       /\ sec_emotion (resolve_tag vosk_words st tg) = sec_emotion st ++ ne
       /\ sec_image (resolve_tag vosk_words st tg) = sec_image st ++ ni
       /\ sec_pose (resolve_tag vosk_words st tg) = sec_pose st ++ npo
       /\ Forall (fun e => ev_time e = t) (np ++ ne ++ ni ++ npo).
Proof.
  intros i t. subst t. repeat split.
  - intros Hi. unfold start_time.
    destruct (nth_error vosk_words i) as [w|] eqn:E.
    + now exists w.
    + apply nth_error_None in E. lia.
  - intros init w E Hlen. unfold start_time.
    rewrite E at 1. rewrite nth_error_last_none by now rewrite <- E.
    rewrite E. destruct init as [|x init]; simpl; [reflexivity|].
    f_equal. rewrite <- (last_cons_default (init ++ [w]) x x).
    change (x :: init ++ [w]) with ((x :: init) ++ [w]).
    apply last_last.
  - intros E. rewrite E. unfold start_time. now destruct i.
  - unfold resolve_tag, on_paragraph_change, on_line_change.
    destruct (tag_type tg);
      repeat match goal with
             | |- context [Z.eqb ?a ?b] => destruct (Z.eqb a b)
             end; simpl;
      repeat match goal with
             | |- exists _ : list event, _ => eexists
             end;
      repeat match goal with
             | |- (?l = ?l ++ _) /\ _ =>
                 split; [symmetry; apply app_nil_r|]
             | |- (_ = _) /\ _ => split; [reflexivity|]
             end;
      simpl; repeat constructor.
Qed.

Lemma tag_time_lookup_witness :
  start_time [mkTimed "hello" 0 500; mkTimed "world" 500 900] 1 = 500%Z
  /\ start_time [mkTimed "hello" 0 500; mkTimed "world" 500 900] 7 = 900%Z
  /\ start_time [] 7 = 0%Z.
Proof.
  pose (ws := [mkTimed "hello" 0 500; mkTimed "world" 500 900]).
  destruct (tag_time_lookup ws resolver_init (mkTag 1 image_tag 0 0 0))
    as (H1 & _).
  destruct (tag_time_lookup ws resolver_init (mkTag 7 image_tag 0 0 0))
    as (_ & H2 & _).
  destruct (tag_time_lookup [] resolver_init (mkTag 7 image_tag 0 0 0))
    as (_ & _ & H3 & _).
  split; [|split].
  - destruct H1 as (w & Hw & Ht); [simpl; lia|].
    simpl in Hw. injection Hw as Hw. subst w. exact Ht.
  - apply (H2 [mkTimed "hello" 0 500] (mkTimed "world" 500 900));
      [reflexivity|simpl; lia].
  - now apply H3.
Defined.

(** ** Image and pose lists grow together *)

Lemma pose_inv_init : pose_inv resolver_init.
Proof. repeat split. simpl. lia. Qed.

Lemma pose_next n : 1 <= n -> ((n - 1) mod 5 + 1) mod 5 = n mod 5.
Proof.
  intros H. rewrite Nat.Div0.add_mod_idemp_l. f_equal. lia.
Qed.

Lemma pose_inv_step vosk_words st tg :
  pose_inv st -> pose_inv (resolve_tag vosk_words st tg).
Proof.
  intros (Hn & Hp & Hv & Ht). unfold pose_inv.
  step_cases; try (repeat split; assumption).
  all: rewrite !length_app, !map_app, Hv, Ht, Hp;
    cbn [List.length map ev_val ev_time];
    rewrite Nat.add_1_r, seq_S, map_app, pose_next by assumption;
    cbn [map Nat.add]; repeat split; try lia.
  all: f_equal; lia.
Qed.

Lemma resolve_tags_pose_inv vosk_words tgs :
  pose_inv (resolve_tags vosk_words tgs).
Proof.
  apply resolve_tags_ind; [apply pose_inv_init|].
  intros st tg. apply pose_inv_step.
Qed.

Lemma image_count vosk_words tgs : forall st,
  List.length (sec_image (fold_left (resolve_tag vosk_words) tgs st))
  = List.length (sec_image st) + transitions (last_l_idx st) tgs.
Proof.
  induction tgs as [|tg tgs IH]; intros st; simpl; [lia|].
  rewrite IH. unfold resolve_tag, on_paragraph_change, on_line_change.
  destruct (tag_type tg); simpl; try reflexivity.
  all: destruct (Z.of_nat (l_idx tg) =? last_l_idx st)%Z; simpl.
  all: match goal with
       | |- context [Z.eqb ?a ?b] => destruct (Z.eqb a b)
       end; simpl; rewrite ?length_app; simpl; lia.
Qed.

(** ** C6 *)

Lemma ends_with_append c s :
  Str.ends_with c (s ++ String c EmptyString) = true.
Proof.
  induction s as [|d s IH]; simpl; [apply Ascii.eqb_refl|].
  destruct (s ++ String c EmptyString)%string eqn:E; [|exact IH].
  destruct s; discriminate.
Qed.

Lemma drop_last_append c s :
  Str.drop_last (s ++ String c EmptyString) = s.
Proof.
  induction s as [|d s IH]; simpl; [reflexivity|].
  destruct (s ++ String c EmptyString)%string eqn:E.
  - destruct s; discriminate.
  - now rewrite IH.
Qed.

Lemma span_until c s rest :
  without c s ->
  Str.span (fun d => negb (Ascii.eqb d c)) (s ++ String c rest)
  = (s, String c rest).
Proof.
  unfold without. induction s as [|d s IH]; simpl.
  - now rewrite Ascii.eqb_refl.
  - intros H. apply andb_prop in H. destruct H as [Hd Hs].
    now rewrite Hd, (IH Hs).
Qed.

Lemma findall_from_skip s : forall k,
  String.length s <= k -> Tokens.findall_from k s = [].
Proof.
  induction s as [|c s IH]; intros k Hk; [reflexivity|].
  simpl in *. destruct k as [|k]; [lia|]. apply IH. lia.
Qed.

Lemma length_append a b :
  String.length (a ++ b) = String.length a + String.length b.
Proof. induction a as [|c a IH]; simpl; [reflexivity|now rewrite IH]. Qed.

(** A well-formed angle tag alone on a line is one token. *)
Lemma findall_angle name :
  name <> EmptyString -> without ">" name ->
  Tokens.findall ("<" ++ name ++ ">") = [("<" ++ name ++ ">")%string].
Proof.
  intros Hne Hgt. unfold Tokens.findall.
  change ("<" ++ name ++ ">")%string with (String "<" (name ++ ">")).
  cbn [Tokens.findall_from].
  unfold Tokens.match_token, Tokens.match_delimited.
  rewrite Ascii.eqb_refl, (span_until ">" name EmptyString Hgt).
  destruct name as [|i inner]; [contradiction|].
  f_equal. apply findall_from_skip.
  cbn [String.length]. lia.
Qed.

Lemma split_single sep s : without sep s -> Str.split sep s = [s].
Proof. apply split_without. Qed.

Lemma resolve_emotion_section vosk_words tgs : forall st,
  sec_emotion (fold_left (resolve_tag vosk_words) tgs st)
  = sec_emotion st
    ++ map (fun tg => mkEvent (start_time vosk_words (word_idx tg)) emotion
                              (VNum (tag_val tg)))
           (filter (fun tg => is_emotion_kind (tag_type tg)) tgs).
Proof.
  induction tgs as [|tg tgs IH]; intros st; simpl.
  - now rewrite app_nil_r.
  - rewrite IH. unfold resolve_tag, on_paragraph_change, on_line_change.
    destruct (tag_type tg); simpl.
    + now rewrite <- app_assoc.
    + repeat match goal with
             | |- context [Z.eqb ?a ?b] => destruct (Z.eqb a b); simpl
             end; reflexivity.
    + repeat match goal with
             | |- context [Z.eqb ?a ?b] => destruct (Z.eqb a b); simpl
             end; reflexivity.
Qed.

(** Claim C6: a token [<name>] whose lower-cased interior is one of
    explain=0, happy=1, sad=2, angry=3, confused=4, rq=5 appends exactly
    one emotion tag, with that code, at the current word index, and
    changes nothing else; with any other interior the token leaves the
    parser state as it was. The parser is a total function, so neither
    case is an error. Alone on a script line such a token yields that
    tag, or none, before the line's image_auto tag. Downstream the
    emotion list is its default followed by one event per emotion tag,
    so an unknown name such as [<shout>] leaves only the default. *)
Theorem emotion_token_vocabulary (l : nat) (st : parser_state)
  (name : string) :
  let token := ("<" ++ name ++ ">")%string in
  (forall code,
     dict_lookup emotions_map (Str.lower name) = Some code ->
     parse_token l st token
     = add_tag st (mkTag (current_word_idx st) emotion_tag code l
                         (current_para_idx st)))
  /\ (dict_lookup emotions_map (Str.lower name) = None ->
      parse_token l st token = st)
  /\ map (dict_lookup emotions_map) emotion_names
     = [Some 0; Some 1; Some 2; Some 3; Some 4; Some 5]
  /\ (forall k, ~ In k emotion_names -> dict_lookup emotions_map k = None)
  /\ (name <> EmptyString -> without ">" name ->
      without Chars.newline name ->
      parse_annotated_text token
      = ([], match dict_lookup emotions_map (Str.lower name) with
             | Some code => [mkTag 0 emotion_tag code 0 0]
             | None => []
             end ++ [mkTag 0 image_auto_tag 0 0 0]))
  /\ (forall vosk_words tgs,
        sec_emotion (resolve_tags vosk_words tgs)
        = baseline emotion
          :: map (fun tg => mkEvent (start_time vosk_words (word_idx tg))
                                    emotion (VNum (tag_val tg)))
                 (filter (fun tg => is_emotion_kind (tag_type tg)) tgs))
  /\ (forall vosk_words mouthCues,
        nth 1 (final_lines "<shout>" vosk_words mouthCues) []
        = ["0.000,emotion,0"]).
Proof.
  intros token.
  assert (Htok : forall j s, parse_token j s token
                 = match dict_lookup emotions_map (Str.lower name) with
                   | Some code =>
                       add_tag s (mkTag (current_word_idx s) emotion_tag
                                        code j (current_para_idx s))
                   | None => s
                   end).
  { intros j s. unfold parse_token, token.
    change ("<" ++ name ++ ">")%string with (String "<" (name ++ ">")).
    cbn [Str.starts_with Str.interior].
    rewrite Ascii.eqb_refl.
    change (String "<" (name ++ ">")) with ("<" ++ (name ++ ">"))%string.
    rewrite <- append_assoc, ends_with_append, drop_last_append.
    reflexivity. }
  split; [intros code H; now rewrite Htok, H|].
  split; [intros H; now rewrite Htok, H|].
  split; [reflexivity|].
  split.
  { intros k Hout. unfold emotions_map. simpl.
    repeat match goal with
           | |- context [String.eqb k ?n] =>
               destruct (String.eqb_spec k n);
               [exfalso; apply Hout; subst k; simpl; tauto|]
           end.
    reflexivity. }
  split.
  { intros Hne Hgt Hnl.
    assert (Hline : Str.split Chars.newline token = [token]).
    { apply split_single. unfold token, without.
      rewrite !forallb_append. cbn. now rewrite Hnl. }
    unfold parse_annotated_text, parse_state. rewrite Hline.
    cbn [parse_lines]. unfold parse_line.
    replace (Str.is_blank token && (0 <? 0)) with false
      by (now rewrite andb_false_r).
    assert (Hf : Tokens.findall token = [token])
      by now apply findall_angle.
    rewrite !Hf. cbn [fold_left]. rewrite !Htok.
    destruct (dict_lookup emotions_map (Str.lower name)); reflexivity. }
  split.
  { intros vosk_words tgs. unfold resolve_tags.
    now rewrite resolve_emotion_section. }
  intros vosk_words mouthCues.
  unfold final_lines, schedule_lines, raw_sections.
  cbn [map nth]. rewrite unique_lines_events.
  - unfold resolve_tags. rewrite resolve_emotion_section. reflexivity.
  - apply resolve_tags_render.
Qed.

Lemma emotion_token_vocabulary_witness :
  parse_token 3 parser_init "<HaPPy>"
  = add_tag parser_init (mkTag 0 emotion_tag 1 3 0)
  /\ parse_token 3 parser_init "<shout>" = parser_init
  /\ parse_annotated_text "<Sad>"
     = ([], [mkTag 0 emotion_tag 2 0 0; mkTag 0 image_auto_tag 0 0 0]).
Proof.
  destruct (emotion_token_vocabulary 3 parser_init "HaPPy") as (H1 & _).
  destruct (emotion_token_vocabulary 3 parser_init "shout") as (_ & H2 & _).
  destruct (emotion_token_vocabulary 0 parser_init "Sad")
    as (_ & _ & _ & _ & H3 & _).
  split; [|split].
  - now apply H1.
  - now apply H2.
  - apply H3; [discriminate|reflexivity|reflexivity].
Defined.

(** ** C2 *)

Lemma write_sections_emit sections : forall i,
  write_sections i sections = emit_sections i (map unique_lines sections).
Proof.
  induction sections as [|s rest IH]; intros i; [reflexivity|].
  cbn [write_sections emit_sections map]. rewrite IH.
  unfold write_section. now rewrite !append_assoc.
Qed.

Lemma schedule_document_final full_text vosk_words mouthCues :
  schedule_document full_text vosk_words mouthCues
  = emit_sections 0 (final_lines full_text vosk_words mouthCues).
Proof. apply write_sections_emit. Qed.

(** Claim C2, as the code has it: the empty script is one empty line, so
    the parser returns no word and one tag, the image_auto tag of line 0
    at word index 0 and paragraph 0. In the schedule the paragraph,
    emotion and image sections hold their default line only; the pose
    section holds its default and the line of pose 1, at the time
    resolved for word index 0 (the start of the first timed word, 0.000
    without timed words); the phoneme section holds the compacted cue
    lines and no default. The file is these five sections, each closed
    by a line break, with a SECTION line after each of the first four
    and nothing after the fifth. *)
Theorem empty_script_schedule (vosk_words : list timed_word)
  (mouthCues : list mouth_cue) :
  let t := match vosk_words with [] => 0%Z | w :: _ => tw_start w end in
  let cue_lines :=
    unique_lines (map line_of_event (map phoneme_event mouthCues)) in
  parse_annotated_text "" = ([], [mkTag 0 image_auto_tag 0 0 0])
  /\ final_lines "" vosk_words mouthCues
     = [ ["0.000,paragraph,0"]; ["0.000,emotion,0"]; ["0.000,image,0"];
         ["0.000,pose,0"; (time_str t ++ ",pose,1")%string]; cue_lines ]
  /\ schedule_document "" vosk_words mouthCues
     = ("0.000,paragraph,0" ++ nl ++ "SECTION" ++ nl
        ++ "0.000,emotion,0" ++ nl ++ "SECTION" ++ nl
        ++ "0.000,image,0" ++ nl ++ "SECTION" ++ nl
        ++ "0.000,pose,0" ++ nl ++ time_str t ++ ",pose,1" ++ nl
        ++ "SECTION" ++ nl
        ++ Str.join nl cue_lines ++ nl)%string.
Proof.
  intros t cue_lines.
  assert (Hfinal : final_lines "" vosk_words mouthCues
     = [ ["0.000,paragraph,0"]; ["0.000,emotion,0"]; ["0.000,image,0"];
         ["0.000,pose,0"; (time_str t ++ ",pose,1")%string]; cue_lines ]).
  { rewrite final_lines_events. unfold final_events, raw_sections.
    rewrite phoneme_events_map.
    subst cue_lines. cbn [map].
    rewrite unique_lines_events
      by (rewrite Forall_map; apply Forall_forall; intros cue _;
          apply renders_phoneme).
    change (snd (parse_annotated_text ""))
      with [mkTag 0 image_auto_tag 0 0 0].
    assert (Ht : start_time vosk_words 0 = t)
      by (subst t; now destruct vosk_words).
    unfold resolve_tags. cbn [fold_left]. unfold resolve_tag.
    cbn [tag_type word_idx l_idx p_idx]. rewrite Ht.
    reflexivity. }
  split; [reflexivity|]. split; [exact Hfinal|].
  rewrite schedule_document_final, Hfinal.
  cbn [emit_sections Nat.ltb Nat.leb Str.join].
  rewrite !append_assoc. reflexivity.
Qed.

(** Claim C2 as stated fails: the parser's tag list for the empty script
    is not empty, and the five sections do not hold one line each (the
    pose section holds two, and without cues the phoneme section holds
    none). *)
Lemma empty_script_is_not_all_baselines :
  snd (parse_annotated_text "") <> []
  /\ ~ Forall (fun sec => List.length sec = 1) (final_lines "" [] [])
  /\ List.length (nth 3 (final_lines "" [] []) []) = 2
  /\ List.length (nth 4 (final_lines "" [] []) []) = 0.
Proof.
  split; [discriminate|]. split; [|split; reflexivity].
  intros H. vm_compute in H.
  do 3 (apply Forall_inv_tail in H). apply Forall_inv in H. discriminate.
Qed.

(** ** C9 *)

(** Claim C9, as the code has it, for the script
    "Hello world\n<happy> [lake] More text\n" and three timed words
    (starts 0.0, 0.5, 1.0; ends 0.5, 1.0, 1.5). The script splits into
    three lines, the last one empty, and holds four words. The emotion
    section gets value 1 at 1.000. The image section holds one event per
    line: line 0 at 0.000 (the default; the event of line 0 itself, at
    1.000, repeats its value and is collapsed), line 1 at 1.000 and the
    empty line 2 at 1.500. Pose advances to 1 at line 0's transition, to
    2 at line 1's and to 3 at line 2's. The empty last line opens
    paragraph 1, so the paragraph section holds the default and
    paragraph 1 at 1.500. *)
Theorem scenario_schedule (mouthCues : list mouth_cue) :
  parse_annotated_text Scenario.script
  = ( ["Hello"; "world"; "More"; "text"],
      [ mkTag 2 image_auto_tag 0 0 0; mkTag 2 emotion_tag 1 1 0;
        mkTag 2 image_tag 1 1 0; mkTag 4 image_auto_tag 1 1 0;
        mkTag 4 image_auto_tag 2 2 1 ] )
  /\ firstn 4 (raw_sections (snd (parse_annotated_text Scenario.script))
                            Scenario.timed mouthCues)
     = [ [ mkEvent 0 paragraph (VNum 0); mkEvent 1000 paragraph (VNum 0);
           mkEvent 1500 paragraph (VNum 1) ];
         [ mkEvent 0 emotion (VNum 0); mkEvent 1000 emotion (VNum 1) ];
         [ mkEvent 0 image (VNum 0); mkEvent 1000 image (VNum 0);
           mkEvent 1000 image (VNum 1); mkEvent 1500 image (VNum 2) ];
         [ mkEvent 0 pose (VNum 0); mkEvent 1000 pose (VNum 1);
           mkEvent 1000 pose (VNum 2); mkEvent 1500 pose (VNum 3) ] ]
  /\ firstn 4 (final_lines Scenario.script Scenario.timed mouthCues)
     = [ [ "0.000,paragraph,0"; "1.500,paragraph,1" ];
         [ "0.000,emotion,0"; "1.000,emotion,1" ];
         [ "0.000,image,0"; "1.000,image,1"; "1.500,image,2" ];
         [ "0.000,pose,0"; "1.000,pose,1"; "1.000,pose,2";
           "1.500,pose,3" ] ].
Proof.
  split; [reflexivity|]. split; [reflexivity|].
  unfold final_lines, schedule_lines, raw_sections.
  cbn [map firstn]. reflexivity.
Qed.

(** Claim C9 as stated fails on two points: the paragraph section is not
    the single default entry, and the pose emitted together with the
    image event of line 1 is 2, not 1 (pose 1 goes with line 0). *)
Lemma scenario_paragraph_and_pose_differ :
  nth 0 (final_lines Scenario.script Scenario.timed []) []
    <> ["0.000,paragraph,0"]
  /\ nth 3 (final_lines Scenario.script Scenario.timed []) []
     <> ["0.000,pose,0"; "1.000,pose,1"]
  /\ (let st := resolve_tags Scenario.timed
                  (snd (parse_annotated_text Scenario.script)) in
      nth 2 (combine (sec_image st) (sec_pose st))
          (baseline image, baseline pose)
      = (mkEvent 1000 image (VNum 1), mkEvent 1000 pose (VNum 2))).
Proof.
  split; [|split]; [vm_compute; discriminate..|reflexivity].
Qed.

(** ** The shape of the parser's tag list *)

Lemma parse_token_group l st tok :
  exists g, tags (parse_token l st tok) = tags st ++ g
            /\ Forall (on_line l) g.
Proof.
  unfold parse_token.
  destruct (Str.starts_with "<" tok && Str.ends_with ">" tok).
  - destruct (dict_lookup emotions_map _).
    + eexists; split; [reflexivity|].
      repeat constructor. discriminate.
    + exists []. now rewrite app_nil_r.
  - destruct (Str.starts_with "[" tok && Str.ends_with "]" tok).
    + eexists; split; [reflexivity|].
      repeat constructor. discriminate.
    + destruct (clean tok); exists []; now rewrite app_nil_r.
Qed.

Lemma fold_tokens_group l toks : forall st,
  exists g, tags (fold_left (parse_token l) toks st) = tags st ++ g
            /\ Forall (on_line l) g.
Proof.
  induction toks as [|tok toks IH]; intros st; simpl.
  - exists []. now rewrite app_nil_r.
  - destruct (IH (parse_token l st tok)) as (g2 & E2 & F2).
    destruct (parse_token_group l st tok) as (g1 & E1 & F1).
    exists (g1 ++ g2). rewrite E2, E1, app_assoc. split; [reflexivity|].
    now apply Forall_app.
Qed.

Lemma parse_line_group st l line :
  exists g w p,
    tags (parse_line st l line)
    = tags st ++ g ++ [mkTag w image_auto_tag l l p]
    /\ Forall (on_line l) g.
Proof.
  unfold parse_line.
  set (st1 := if Str.is_blank line && (0 <? l) then _ else st).
  assert (E1 : tags st1 = tags st) by (subst st1; now destruct (_ && _)).
  destruct (fold_tokens_group l (Tokens.findall line) st1) as (g & Eg & Fg).
  exists g. do 2 eexists. cbn [tags add_tag].
  rewrite Eg, E1, <- app_assoc. split; [reflexivity|assumption].
Qed.

Lemma parse_lines_group lines : forall st l,
  exists G, tags (parse_lines st l lines) = tags st ++ G
            /\ grouped l (List.length lines) G.
Proof.
  induction lines as [|line lines IH]; intros st l; simpl.
  - exists []. rewrite app_nil_r. split; [reflexivity|constructor].
  - destruct (IH (parse_line st l line) (S l)) as (G & EG & HG).
    destruct (parse_line_group st l line) as (g & w & p & Eg & Fg).
    exists (g ++ mkTag w image_auto_tag l l p :: G).
    rewrite EG, Eg, <- !app_assoc. split; [reflexivity|].
    now constructor.
Qed.

Lemma parse_grouped text :
  grouped 0 (List.length (Str.split Chars.newline text))
          (snd (parse_annotated_text text)).
Proof.
  destruct (parse_lines_group (Str.split Chars.newline text) parser_init 0)
    as (G & EG & HG).
  unfold parse_annotated_text, parse_state. cbn [snd].
  now rewrite EG.
Qed.

(** ** Image transitions over grouped tags *)

Lemma image_values_line l w p rest g :
  Forall (on_line l) g ->
  forall last_l,
    (last_l = Z.of_nat l - 1 \/ last_l = Z.of_nat l)%Z ->
    image_values last_l (g ++ mkTag w image_auto_tag l l p :: rest)
    = (if (last_l =? Z.of_nat l)%Z then [] else [l])
        ++ image_values (Z.of_nat l) rest.
Proof.
  induction 1 as [|t g [Hl Hk] _ IH]; intros last_l Hlast; simpl.
  - rewrite (Z.eqb_sym last_l).
    destruct (Z.eqb_spec (Z.of_nat l) last_l) as [E|E];
      [rewrite <- E|]; reflexivity.
  - rewrite Hl.
    destruct (is_image_kind (tag_type t)); [|now apply IH].
    destruct (Z.eqb_spec (Z.of_nat l) last_l) as [E|E].
    + apply IH. now right.
    + rewrite IH by now right. rewrite Z.eqb_refl.
      destruct (Z.eqb_spec last_l (Z.of_nat l)); [congruence|reflexivity].
Qed.

Lemma image_values_grouped l n G :
  grouped l n G -> image_values (Z.of_nat l - 1) G = seq l n.
Proof.
  induction 1 as [|l n g w p rest Hg _ IH]; [reflexivity|].
  rewrite (image_values_line l w p rest g Hg) by now left.
  destruct (Z.eqb_spec (Z.of_nat l - 1) (Z.of_nat l)); [lia|].
  simpl. f_equal. rewrite <- IH. f_equal. lia.
Qed.

Lemma transitions_length tgs : forall last_l,
  transitions last_l tgs = List.length (image_values last_l tgs).
Proof.
  induction tgs as [|t tgs IH]; intros last_l; simpl; [reflexivity|].
  destruct (is_image_kind (tag_type t)); [|apply IH].
  destruct (Z.of_nat (l_idx t) =? last_l)%Z; simpl; now rewrite IH.
Qed.

Lemma resolve_image_values vosk_words tgs : forall st,
  map ev_val (sec_image (fold_left (resolve_tag vosk_words) tgs st))
  = map ev_val (sec_image st)
    ++ map VNum (image_values (last_l_idx st) tgs).
Proof.
  induction tgs as [|tg tgs IH]; intros st; simpl.
  - now rewrite app_nil_r.
  - rewrite IH. unfold resolve_tag, on_paragraph_change, on_line_change.
    destruct (tag_type tg); simpl; try reflexivity.
    all: destruct (Z.of_nat (l_idx tg) =? last_l_idx st)%Z; simpl.
    all: match goal with
         | |- context [Z.eqb ?a ?b] => destruct (Z.eqb a b)
         end; simpl; rewrite ?map_app, <- ?app_assoc; reflexivity.
Qed.

Lemma auto_tags_grouped l n G :
  grouped l n G -> map l_idx (filter is_auto G) = seq l n.
Proof.
  induction 1 as [|l n g w p rest Hg _ IH]; [reflexivity|].
  rewrite filter_app, map_app. simpl. rewrite IH.
  replace (filter is_auto g) with (@nil tag); [reflexivity|].
  symmetry. induction Hg as [|t g [_ Hk] _ IHg]; [reflexivity|].
  simpl. unfold is_auto at 1. destruct (tag_type t); try exact IHg.
  congruence.
Qed.

Lemma mod5_succ_ne a : a mod 5 <> S a mod 5.
Proof.
  pose proof (Nat.div_mod_eq a 5) as Ha.
  pose proof (Nat.div_mod_eq (S a) 5) as Hs.
  pose proof (Nat.mod_upper_bound a 5) as Ua.
  pose proof (Nat.mod_upper_bound (S a) 5) as Us.
  lia.
Qed.

(** The pose values 0, 1, 2, 3, 4, 0, ... never repeat side by side, so
    the compactor keeps the pose list whole. *)
Lemma collapse_from_cycle m : forall a evs prev,
  map ev_val evs = map (fun j => VNum (j mod 5)) (seq a m) ->
  prev <> nat_str (a mod 5) ->
  collapse_from ev_key prev evs = evs.
Proof.
  induction m as [|m IH]; intros a evs prev Hv Hp.
  - destruct evs; [reflexivity|discriminate].
  - destruct evs as [|e evs]; [discriminate|].
    cbn [map seq] in Hv.
    assert (He : ev_val e = VNum (a mod 5)) by congruence.
    assert (Hv' : map ev_val evs
                  = map (fun j => VNum (j mod 5)) (seq (S a) m))
      by congruence.
    clear Hv. rename Hv' into Hv.
    cbn [collapse_from]. unfold ev_key at 1. rewrite He.
    cbn [value_str].
    destruct (String.eqb_spec (nat_str (a mod 5)) prev); [congruence|].
    f_equal. apply (IH (S a)); [exact Hv|].
    unfold ev_key. rewrite He. cbn [value_str].
    intros E. apply nat_str_inj in E. now apply mod5_succ_ne in E.
Qed.

Lemma collapse_cycle m evs :
  map ev_val evs = map (fun j => VNum (j mod 5)) (seq 0 m) ->
  collapse ev_key evs = evs.
Proof.
  destruct m as [|m]; destruct evs as [|e evs]; try discriminate;
    [reflexivity|].
  cbn [map seq collapse]. intros Hv.
  assert (He : ev_val e = VNum (0 mod 5)) by congruence.
  assert (Hv' : map ev_val evs = map (fun j => VNum (j mod 5)) (seq 1 m))
    by congruence.
  f_equal. apply (collapse_from_cycle m 1); [exact Hv'|].
  unfold ev_key. rewrite He. cbn [value_str].
  intros E. apply nat_str_inj in E. now apply (mod5_succ_ne 0).
Qed.

Lemma seq_increasing n : forall l, StronglySorted lt (seq l n).
Proof.
  induction n as [|n IH]; intros l; simpl; constructor; [apply IH|].
  apply Forall_forall. intros x Hx. apply in_seq in Hx. lia.
Qed.

(** ** C10 *)

Lemma event_nums (evs : list event) : forall ns,
  map ev_val evs = map VNum ns -> map event_num evs = ns.
Proof.
  induction evs as [|e evs IH]; intros [|k ns] H; try discriminate;
    [reflexivity|].
  cbn [map] in H.
  assert (He : ev_val e = VNum k) by congruence.
  assert (Hr : map ev_val evs = map VNum ns) by congruence.
  cbn [map]. unfold event_num at 1. rewrite He. f_equal. now apply IH.
Qed.

(** Claim C10, as the code has it: every line of the script, blank or
    not, ends with an image_auto tag carrying its own line index, and
    the line indices of these tags are 0, 1, ..., n-1 for a script of n
    lines. During resolution each line triggers exactly one accepted
    image transition. The raw image section is the default, of value
    0, followed by one event per line whose values are the line
    indices 0, 1, ..., n-1: the events after the default are strictly
    increasing in value, the section as a whole is not, since line 0
    repeats the default's 0. The pose list holds n events after its
    default, before and after compaction. *)
Theorem every_line_one_image_transition (full_text : string)
  (vosk_words : list timed_word) (mouthCues : list mouth_cue) :
  let n := List.length (Str.split Chars.newline full_text) in
  let tgs := snd (parse_annotated_text full_text) in
  let st := resolve_tags vosk_words tgs in
  1 <= n
  /\ map l_idx (filter is_auto tgs) = seq 0 n
  /\ image_values (-1) tgs = seq 0 n
  /\ transitions (-1) tgs = n
  /\ map ev_val (sec_image st) = VNum 0 :: map VNum (seq 0 n)
  /\ StronglySorted lt (image_values (-1) tgs)
  /\ (exists line_events,
        sec_image st = baseline image :: line_events
        /\ map event_num line_events = seq 0 n
        /\ StronglySorted lt (map event_num line_events)
        /\ map event_num (sec_image st) = 0 :: 0 :: seq 1 (n - 1))
  /\ List.length (sec_pose st) = S n
  /\ nth 3 (final_events full_text vosk_words mouthCues) [] = sec_pose st.
Proof.
  intros n tgs st.
  pose proof (parse_grouped full_text) as HG. fold n tgs in HG.
  assert (Hv : image_values (-1) tgs = seq 0 n)
    by apply (image_values_grouped 0 n tgs HG).
  assert (Hi : List.length (sec_image st) = S n).
  { subst st. unfold resolve_tags. rewrite image_count.
    rewrite transitions_length. cbn [last_l_idx resolver_init].
    rewrite Hv, length_seq. reflexivity. }
  assert (Hraw : map ev_val (sec_image st) = VNum 0 :: map VNum (seq 0 n)).
  { subst st. unfold resolve_tags. rewrite resolve_image_values.
    cbn [last_l_idx resolver_init]. now rewrite Hv. }
  assert (Hn : 1 <= n).
  { subst n. destruct (Str.split Chars.newline full_text) eqn:E;
      [now apply split_nonempty in E|simpl; lia]. }
  destruct (resolve_tags_pose_inv vosk_words tgs) as (_ & _ & Hp & _).
  fold st in Hp.
  split; [exact Hn|].
  split; [apply (auto_tags_grouped 0 n tgs HG)|].
  split; [exact Hv|].
  split; [now rewrite transitions_length, Hv, length_seq|].
  split; [exact Hraw|].
  split; [rewrite Hv; apply seq_increasing|].
  split.
  { destruct (resolve_tags_headed vosk_words tgs)
      as (_ & _ & [line_events Hhead] & _).
    fold st in Hhead. exists line_events.
    rewrite Hhead in Hraw. cbn [map] in Hraw.
    assert (Hrest : map ev_val line_events = map VNum (seq 0 n))
      by congruence.
    apply event_nums in Hrest.
    split; [exact Hhead|]. split; [exact Hrest|].
    split; [rewrite Hrest; apply seq_increasing|].
    rewrite Hhead. cbn [map]. rewrite Hrest.
    replace (seq 0 n) with (seq 0 (S (n - 1))) by (f_equal; lia).
    reflexivity. }
  split.
  { rewrite <- (length_map ev_val), Hp, length_map, length_seq. exact Hi. }
  unfold final_events, raw_sections. cbn [map nth].
  fold tgs. fold st. now apply (collapse_cycle (List.length (sec_image st))).
Qed.

(** Claim C10 as stated fails on the raw image section taken whole: for
    the two-line script "one\ntwo" its values are 0, 0, 1, the default
    and then the two line indices, which is not strictly increasing. *)
Lemma raw_image_section_repeats_zero :
  map event_num
      (sec_image (resolve_tags []
                    (snd (parse_annotated_text ("one" ++ nl ++ "two")))))
  = [0; 0; 1]
  /\ ~ StronglySorted lt
        (map event_num
             (sec_image (resolve_tags []
                           (snd (parse_annotated_text
                                   ("one" ++ nl ++ "two")))))).
Proof.
  assert (E : map event_num
                (sec_image (resolve_tags []
                              (snd (parse_annotated_text
                                      ("one" ++ nl ++ "two")))))
              = [0; 0; 1]) by reflexivity.
  split; [exact E|]. rewrite E. intros H.
  apply StronglySorted_inv in H. destruct H as [_ H].
  apply Forall_inv in H. lia.
Qed.

(** ** Word indices of the parser's tags never go back *)

Lemma ascending_snoc a t : forall lo,
  ascending lo a ->
  Forall (fun x => word_idx x <= word_idx t) a ->
  lo <= word_idx t ->
  ascending lo (a ++ [t]).
Proof.
  induction a as [|x a IH]; intros lo Ha Hall Hlo; simpl.
  - split; [assumption|exact I].
  - destruct Ha as [Hx Ha]. split; [assumption|].
    apply IH; [assumption|now apply Forall_inv_tail in Hall|].
    now apply Forall_inv in Hall.
Qed.

Lemma add_tag_ok st k v l p :
  parser_ok st ->
  parser_ok (add_tag st (mkTag (current_word_idx st) k v l p)).
Proof.
  intros [Ha Hall]. split; cbn [tags add_tag current_word_idx].
  - apply ascending_snoc; [assumption|assumption|cbn; lia].
  - apply Forall_app. split; [assumption|].
    repeat constructor.
Qed.

Lemma parse_token_ok l st tok : parser_ok st -> parser_ok (parse_token l st tok).
Proof.
  intros Hst. unfold parse_token.
  destruct (Str.starts_with "<" tok && Str.ends_with ">" tok).
  - destruct (dict_lookup emotions_map _); [now apply add_tag_ok|assumption].
  - destruct (Str.starts_with "[" tok && Str.ends_with "]" tok);
      [now apply add_tag_ok|].
    destruct (clean tok); [assumption|].
    destruct Hst as [Ha Hall]. split; cbn [tags current_word_idx];
      [assumption|].
    eapply Forall_impl; [|exact Hall]. cbn. intros t Ht. lia.
Qed.

Lemma fold_tokens_ok l toks : forall st,
  parser_ok st -> parser_ok (fold_left (parse_token l) toks st).
Proof.
  induction toks as [|tok toks IH]; intros st Hst; simpl; [assumption|].
  apply IH. now apply parse_token_ok.
Qed.

Lemma parse_line_ok st l line : parser_ok st -> parser_ok (parse_line st l line).
Proof.
  intros Hst. unfold parse_line. apply add_tag_ok, fold_tokens_ok.
  destruct (Str.is_blank line && (0 <? l)); [|assumption].
  exact Hst.
Qed.

Lemma parse_lines_ok lines : forall st l,
  parser_ok st -> parser_ok (parse_lines st l lines).
Proof.
  induction lines as [|line lines IH]; intros st l Hst; simpl; [assumption|].
  apply IH. now apply parse_line_ok.
Qed.

Lemma parse_ascending text : ascending 0 (snd (parse_annotated_text text)).
Proof.
  apply (parse_lines_ok (Str.split Chars.newline text) parser_init 0).
  split; [exact I|constructor].
Qed.

(** ** The time lookup is monotone on chronological timings *)

Lemma start_time_clamp ws i : start_time ws i = clamp 0 ws i.
Proof.
  unfold start_time, clamp. destruct (nth_error ws i); [reflexivity|].
  destruct ws as [|w ws]; [reflexivity|].
  cbn [map]. now rewrite last_cons_default, last_map_default.
Qed.

Lemma clamp_cons d w ws i : clamp d (w :: ws) (S i) = clamp (tw_end w) ws i.
Proof.
  unfold clamp. cbn [nth_error map]. now rewrite last_cons_default.
Qed.

Lemma clamp_lower ws : forall d i, chronological d ws -> (d <= clamp d ws i)%Z.
Proof.
  induction ws as [|w ws IH]; intros d i Hc.
  - unfold clamp. destruct i; simpl; lia.
  - destruct Hc as (H1 & H2 & Hc). destruct i as [|i].
    + unfold clamp. simpl. exact H1.
    + rewrite clamp_cons. specialize (IH _ i Hc). lia.
Qed.

Lemma clamp_mono ws : forall d i j,
  chronological d ws -> i <= j -> (clamp d ws i <= clamp d ws j)%Z.
Proof.
  induction ws as [|w ws IH]; intros d i j Hc Hij.
  - unfold clamp. destruct i, j; simpl; lia.
  - destruct Hc as (H1 & H2 & Hc). destruct i as [|i], j as [|j]; try lia.
    + rewrite clamp_cons. pose proof (clamp_lower ws _ j Hc).
      unfold clamp at 1. simpl. lia.
    + rewrite !clamp_cons. apply IH; [assumption|lia].
Qed.

(** ** Sections stay sorted by time *)

Lemma sec_ok_weaken T T' sec : (T <= T')%Z -> sec_ok T sec -> sec_ok T' sec.
Proof.
  intros HT [Hs Hb]. split; [assumption|].
  eapply Forall_impl; [|exact Hb]. cbn. intros e He. lia.
Qed.

Lemma sorted_snoc (l : list Z) (t : Z) :
  StronglySorted Z.le l -> Forall (fun x => (x <= t)%Z) l ->
  StronglySorted Z.le (l ++ [t]).
Proof.
  induction 1 as [|x l Hs IH Hx]; intros Hb; simpl.
  - repeat constructor.
  - constructor.
    + apply IH. now apply Forall_inv_tail in Hb.
    + apply Forall_app. split; [assumption|].
      apply Forall_inv in Hb. now repeat constructor.
Qed.

Lemma sec_ok_snoc T t c v sec :
  (T <= t)%Z -> sec_ok T sec -> sec_ok t (sec ++ [mkEvent t c v]).
Proof.
  intros HT [Hs Hb]. split.
  - rewrite map_app. apply sorted_snoc; [assumption|].
    rewrite Forall_map. eapply Forall_impl; [|exact Hb].
    cbn. intros e He. lia.
  - apply Forall_app. split.
    + eapply Forall_impl; [|exact Hb]. cbn. intros e He. lia.
    + repeat constructor. cbn. lia.
Qed.

Lemma resolve_tag_bounded vosk_words T st tg :
  (T <= start_time vosk_words (word_idx tg))%Z ->
  bounded T st ->
  bounded (start_time vosk_words (word_idx tg))
          (resolve_tag vosk_words st tg).
Proof.
  intros HT (Hp & He & Hi & Ho). unfold bounded.
  step_cases; (split; [|split; [|split]]);
    first [ apply (sec_ok_snoc T); assumption
          | apply (sec_ok_weaken T); assumption ].
Qed.

Lemma resolve_tags_bounded vosk_words :
  (forall i j, i <= j ->
     (start_time vosk_words i <= start_time vosk_words j)%Z) ->
  forall tgs lo st,
    ascending lo tgs ->
    bounded (start_time vosk_words lo) st ->
    exists T, bounded T (fold_left (resolve_tag vosk_words) tgs st).
Proof.
  intros Hmono. induction tgs as [|tg tgs IH]; intros lo st Ha Hb; simpl.
  - eauto.
  - destruct Ha as [Hlo Ha]. apply (IH (word_idx tg)); [assumption|].
    apply (resolve_tag_bounded _ (start_time vosk_words lo));
      [now apply Hmono|assumption].
Qed.

(** ** C4 *)

Lemma collapse_no_adjacent evs : no_adjacent_equal (collapse ev_key evs).
Proof.
  intros pre a b post E. apply collapse_adjacent in E.
  unfold ev_key in E. congruence.
Qed.

(** Claim C4, as the code has it. For every script, every list of timed
    words and every list of cues, no compacted section holds two
    neighbouring events of equal value, and the lines written are the
    renderings of the compacted events. The sections are in
    non-decreasing time order when the timing sources are: the timed
    words chronological from 0.000 on (each word starts no earlier than
    the previous one ends and ends no earlier than it starts) and the
    cues in non-decreasing time order. The resolver copies the times it
    is given and never sorts. *)
Theorem compacted_sections_ordered (full_text : string)
  (vosk_words : list timed_word) (mouthCues : list mouth_cue) :
  final_lines full_text vosk_words mouthCues
  = map (map line_of_event) (final_events full_text vosk_words mouthCues)
  /\ Forall no_adjacent_equal (final_events full_text vosk_words mouthCues)
  /\ (chronological 0 vosk_words ->
      StronglySorted Z.le (map cue_start mouthCues) ->
      Forall time_sorted (final_events full_text vosk_words mouthCues)).
Proof.
  split; [apply final_lines_events|]. split.
  - unfold final_events. rewrite Forall_map.
    apply Forall_forall. intros evs _. apply collapse_no_adjacent.
  - intros Hw Hc. unfold final_events, raw_sections.
    assert (Hmono : forall i j, i <= j ->
              (start_time vosk_words i <= start_time vosk_words j)%Z).
    { intros i j Hij. rewrite !start_time_clamp. now apply clamp_mono. }
    assert (H0 : (0 <= start_time vosk_words 0)%Z).
    { rewrite start_time_clamp. now apply clamp_lower. }
    destruct (resolve_tags_bounded vosk_words Hmono
                (snd (parse_annotated_text full_text)) 0 resolver_init
                (parse_ascending full_text))
      as (T & (Hp & _) & (He & _) & (Hi & _) & (Ho & _)).
    { repeat split; repeat constructor; exact H0. }
    fold (resolve_tags vosk_words (snd (parse_annotated_text full_text)))
      in Hp, He, Hi, Ho.
    cbn [map]. unfold time_sorted.
    repeat (constructor; [now apply collapse_sorted|]).
    constructor; [|constructor].
    apply collapse_sorted. rewrite phoneme_events_map, map_map.
    exact Hc.
Qed.

Lemma compacted_sections_ordered_witness :
  Forall time_sorted
    (final_events Scenario.script Scenario.timed
                  [mkCue 0 "X"; mkCue 120 "B"; mkCue 120 "C"; mkCue 400 "X"]).
Proof.
  apply (compacted_sections_ordered Scenario.script Scenario.timed
           [mkCue 0 "X"; mkCue 120 "B"; mkCue 120 "C"; mkCue 400 "X"]).
  - simpl. lia.
  - simpl. repeat constructor; lia.
Defined.

(** Claim C4 as stated fails for timing sources that are not in time
    order: cues given at 0.500 then 0.100 are written in that order, and
    so are the emotion events of two words timed at 0.900 and 0.100. *)
Lemma unordered_timings_stay_unordered :
  ~ Forall time_sorted (final_events "" [] [mkCue 500 "A"; mkCue 100 "B"])
  /\ ~ Forall time_sorted
         (final_events "<happy> one <sad> two"
            [mkTimed "one" 900 950; mkTimed "two" 100 200] [])
  /\ nth 4 (final_lines "" [] [mkCue 500 "A"; mkCue 100 "B"]) []
     = ["0.500,phoneme,m"; "0.100,phoneme,t"].
Proof.
  split; [|split; [|reflexivity]].
  - intros H. rewrite Forall_forall in H.
    specialize (H [ mkEvent 500 phoneme (VShape "m");
                    mkEvent 100 phoneme (VShape "t") ]).
    assert (S : time_sorted [ mkEvent 500 phoneme (VShape "m");
                              mkEvent 100 phoneme (VShape "t") ])
      by (apply H; do 4 right; left; reflexivity).
    unfold time_sorted in S. cbn in S.
    apply StronglySorted_inv in S. destruct S as [_ S].
    apply Forall_inv in S. lia.
  - intros H. rewrite Forall_forall in H.
    specialize (H [ mkEvent 0 emotion (VNum 0); mkEvent 900 emotion (VNum 1);
                    mkEvent 100 emotion (VNum 2) ]).
    assert (S : time_sorted [ mkEvent 0 emotion (VNum 0);
                              mkEvent 900 emotion (VNum 1);
                              mkEvent 100 emotion (VNum 2) ])
      by (apply H; right; left; reflexivity).
    unfold time_sorted in S. cbn in S.
    apply StronglySorted_inv in S. destruct S as [S _].
    apply StronglySorted_inv in S. destruct S as [_ S].
    apply Forall_inv in S. lia.
Qed.

(** ** C5 *)

Lemma runs_line l w p rest g :
  Forall (on_line l) g ->
  forall last_l,
    (last_l = Z.of_nat l - 1 \/ last_l = Z.of_nat l)%Z ->
    runs last_l (map l_idx (g ++ mkTag w image_auto_tag l l p :: rest))
    = (if (last_l =? Z.of_nat l)%Z then 0 else 1)
      + runs (Z.of_nat l) (map l_idx rest).
Proof.
  induction 1 as [|t g [Hl Hk] _ IH]; intros last_l Hlast;
    cbn [app map runs l_idx].
  - rewrite (Z.eqb_sym last_l).
    destruct (Z.eqb_spec (Z.of_nat l) last_l) as [E|E];
      [rewrite <- E|]; reflexivity.
  - rewrite Hl.
    destruct (Z.eqb_spec (Z.of_nat l) last_l) as [E|E].
    + rewrite IH by now right. subst last_l. reflexivity.
    + rewrite IH by now right. rewrite Z.eqb_refl.
      destruct (Z.eqb_spec last_l (Z.of_nat l)); [congruence|reflexivity].
Qed.

Lemma runs_grouped l n G :
  grouped l n G -> runs (Z.of_nat l - 1) (map l_idx G) = n.
Proof.
  induction 1 as [|l n g w p rest Hg _ IH]; [reflexivity|].
  rewrite (runs_line l w p rest g Hg) by now left.
  destruct (Z.eqb_spec (Z.of_nat l - 1) (Z.of_nat l)); [lia|].
  cbn [Nat.add]. f_equal. rewrite <- IH. f_equal. lia.
Qed.

(** Claim C5: the pose emitted on the [k]-th accepted image transition
    is [k mod 5]: the pose list is the default 0 followed by 1, 2, 3, 4,
    0, 1, ..., one value per image event and at that event's time. The
    values depend only on how many transitions were accepted (the
    number of times an image tag's line index differs from the line
    index that triggered last, starting from the sentinel -1), not on
    the line indices. An image tag on the line that triggered last
    leaves the pose list and the pose counter alone; any other image
    tag appends one pose event and advances the counter by 1 mod 5; an
    emotion tag never touches the pose. On the tags of a parsed script
    the accepted transitions are the runs of equal line indices of the
    whole tag stream. *)
Theorem pose_counts_transitions (vosk_words : list timed_word)
  (tgs : list tag) :
  let st := resolve_tags vosk_words tgs in
  let k := transitions (-1) tgs in
  map ev_val (sec_pose st) = map (fun j => VNum (j mod 5)) (seq 0 (S k))
  /\ List.length (sec_image st) = S k
  /\ map ev_time (sec_pose st) = map ev_time (sec_image st)
  /\ pose_state st = k mod 5
  /\ (forall st' tg,
        is_image_kind (tag_type tg) = true ->
        Z.of_nat (l_idx tg) = last_l_idx st' ->
        sec_pose (resolve_tag vosk_words st' tg) = sec_pose st'
        /\ pose_state (resolve_tag vosk_words st' tg) = pose_state st')
  /\ (forall st' tg,
        is_image_kind (tag_type tg) = true ->
        Z.of_nat (l_idx tg) <> last_l_idx st' ->
        sec_pose (resolve_tag vosk_words st' tg)
        = sec_pose st'
          ++ [mkEvent (start_time vosk_words (word_idx tg)) pose
                      (VNum ((pose_state st' + 1) mod 5))]
        /\ pose_state (resolve_tag vosk_words st' tg)
           = (pose_state st' + 1) mod 5)
  /\ (forall st' tg,
        tag_type tg = emotion_tag ->
        sec_pose (resolve_tag vosk_words st' tg) = sec_pose st'
        /\ pose_state (resolve_tag vosk_words st' tg) = pose_state st')
  /\ (forall full_text,
        transitions (-1) (snd (parse_annotated_text full_text))
        = runs (-1) (map l_idx (snd (parse_annotated_text full_text)))).
Proof.
  intros st k.
  assert (Hlen : List.length (sec_image st) = S k).
  { subst st k. unfold resolve_tags. now rewrite image_count. }
  destruct (resolve_tags_pose_inv vosk_words tgs) as (_ & Hp & Hv & Ht).
  fold st in Hp, Hv, Ht. rewrite Hlen in Hp, Hv.
  split; [exact Hv|]. split; [exact Hlen|]. split; [exact Ht|].
  split; [rewrite Hp; f_equal; lia|].
  split; [|split; [|split]].
  - intros st' tg Hk Hl. apply Z.eqb_eq in Hl.
    unfold resolve_tag, on_paragraph_change, on_line_change.
    destruct (tag_type tg); try discriminate; rewrite Hl; simpl;
      match goal with
      | |- context [Z.eqb ?a ?b] => destruct (Z.eqb a b)
      end; now split.
  - intros st' tg Hk Hl. apply Z.eqb_neq in Hl.
    unfold resolve_tag, on_paragraph_change, on_line_change.
    destruct (tag_type tg); try discriminate; rewrite Hl; simpl;
      match goal with
      | |- context [Z.eqb ?a ?b] => destruct (Z.eqb a b)
      end; now split.
  - intros st' tg Hk. unfold resolve_tag. rewrite Hk. now split.
  - intros full_text. pose proof (parse_grouped full_text) as HG.
    rewrite transitions_length.
    change (-1)%Z with (Z.of_nat 0 - 1)%Z.
    rewrite (image_values_grouped 0 _ _ HG), length_seq.
    symmetry. apply (runs_grouped 0 _ _ HG).
Qed.

Lemma pose_counts_transitions_witness :
  map ev_val
      (sec_pose (resolve_tags []
         [ mkTag 0 image_tag 7 7 0; mkTag 0 image_auto_tag 7 7 0;
           mkTag 0 image_auto_tag 3 3 0; mkTag 0 emotion_tag 1 9 0;
           mkTag 0 image_auto_tag 7 7 0 ]))
  = [VNum 0; VNum 1; VNum 2; VNum 3]
  /\ pose_state (resolve_tag [] resolver_init (mkTag 0 image_tag 7 7 0)) = 1.
Proof.
  split.
  - apply (pose_counts_transitions []
             [ mkTag 0 image_tag 7 7 0; mkTag 0 image_auto_tag 7 7 0;
               mkTag 0 image_auto_tag 3 3 0; mkTag 0 emotion_tag 1 9 0;
               mkTag 0 image_auto_tag 7 7 0 ]).
  - apply (pose_counts_transitions [] []); [reflexivity|simpl; lia].
Defined.

(** * Further properties of the code *)

(** ** The tokenizer *)

Lemma span_fst_forallb p s :
  Str.forallb p (fst (Str.span p s)) = true.
Proof.
  induction s as [|c s IH]; simpl; [reflexivity|].
  destruct (p c) eqn:E; [|reflexivity].
  destruct (Str.span p s) as [a b]. simpl in *. now rewrite E, IH.
Qed.

Lemma ends_with_cons c d s :
  s <> EmptyString -> Str.ends_with c (String d s) = Str.ends_with c s.
Proof. destruct s; [contradiction|reflexivity]. Qed.

Lemma match_delimited_shape opn cls s t :
  Tokens.match_delimited opn cls s = Some t ->
  Str.starts_with opn t && Str.ends_with cls t = true.
Proof.
  unfold Tokens.match_delimited. destruct s as [|c r]; [discriminate|].
  destruct (Ascii.eqb c opn) eqn:Ec; [|discriminate].
  destruct (Str.span _ r) as [[|i inner] [|a after]]; try discriminate.
  intros H. injection H as H. subst t. cbn [Str.starts_with].
  rewrite Ec. cbn [andb].
  rewrite ends_with_cons by (cbn; discriminate).
  change (String i inner ++ String cls "")%string
    with (String i (inner ++ String cls ""))%string.
  destruct inner as [|j inner].
  - cbn. apply Ascii.eqb_refl.
  - rewrite ends_with_cons by (cbn; discriminate).
    apply (ends_with_append cls (String j inner)).
Qed.

Lemma match_nonspace_shape s t :
  Tokens.match_nonspace s = Some t ->
  Str.forallb (fun c => negb (Chars.is_space c)) t = true.
Proof.
  unfold Tokens.match_nonspace.
  pose proof (span_fst_forallb (fun d => negb (Chars.is_space d)) s) as H.
  destruct (Str.span _ s) as [[|c run] b]; [discriminate|].
  intros E. injection E as E. now subst t.
Qed.

Lemma match_token_shape s t :
  Tokens.match_token s = Some t -> t <> EmptyString /\ token_shape t.
Proof.
  unfold Tokens.match_token, token_shape.
  destruct (Tokens.match_delimited "<" ">" s) as [t1|] eqn:E1.
  - intros H. injection H as H. subst t1.
    apply match_delimited_shape in E1. split; [|now left].
    destruct t; [discriminate|discriminate].
  - destruct (Tokens.match_delimited "[" "]" s) as [t2|] eqn:E2.
    + intros H. injection H as H. subst t2.
      apply match_delimited_shape in E2. split; [|now right; left].
      destruct t; discriminate.
    + intros H. split; [|right; right; now apply match_nonspace_shape in H].
      unfold Tokens.match_nonspace in H.
      destruct (Str.span _ s) as [[|c run] b]; [discriminate|].
      injection H as H. subst t. discriminate.
Qed.

Lemma findall_from_shape s : forall skip,
  Forall (fun t => t <> EmptyString /\ token_shape t)
         (Tokens.findall_from skip s).
Proof.
  induction s as [|c r IH]; intros skip; [constructor|].
  cbn [Tokens.findall_from]. destruct skip as [|k]; [|apply IH].
  destruct (Tokens.match_token (String c r)) as [t|] eqn:E; [|apply IH].
  constructor; [now apply match_token_shape in E|apply IH].
Qed.

Lemma match_token_space c r :
  Chars.is_space c = true -> Tokens.match_token (String c r) = None.
Proof.
  intros Hc. unfold Tokens.match_token, Tokens.match_delimited,
    Tokens.match_nonspace.
  destruct (Ascii.eqb_spec c "<") as [E|_]; [subst c; discriminate|].
  destruct (Ascii.eqb_spec c "[") as [E|_]; [subst c; discriminate|].
  cbn [Str.span]. now rewrite Hc.
Qed.

Lemma match_token_nonspace c r :
  Chars.is_space c = false -> Tokens.match_token (String c r) <> None.
Proof.
  intros Hc. unfold Tokens.match_token.
  destruct (Tokens.match_delimited "<" ">" _); [discriminate|].
  destruct (Tokens.match_delimited "[" "]" _); [discriminate|].
  unfold Tokens.match_nonspace. cbn [Str.span]. rewrite Hc. cbn [negb].
  destruct (Str.span _ r). discriminate.
Qed.

Lemma findall_blank line :
  Tokens.findall line = [] <-> Str.is_blank line = true.
Proof.
  unfold Tokens.findall, Str.is_blank.
  induction line as [|c r IH]; [now split|].
  cbn [Tokens.findall_from Str.forallb].
  destruct (Chars.is_space c) eqn:Hc.
  - rewrite (match_token_space c r Hc). exact IH.
  - pose proof (match_token_nonspace c r Hc) as Hn.
    destruct (Tokens.match_token (String c r)); [|contradiction].
    split; discriminate.
Qed.

(** X3. A line yields no token exactly when it is blank (only white
    space, or empty); every token is non-empty and is an angle tag, a
    square tag or a run free of white space. *)
Theorem tokens_of_a_line (line : string) :
  (Tokens.findall line = [] <-> Str.is_blank line = true)
  /\ Forall (fun t => t <> EmptyString /\ token_shape t)
            (Tokens.findall line).
Proof. split; [apply findall_blank|apply findall_from_shape]. Qed.

(** ** Words and word indices *)

Lemma clean_nonspace tok :
  Str.forallb (fun c => negb (Chars.is_space c)) tok = true ->
  Str.forallb Chars.is_word (clean tok) = true.
Proof.
  unfold clean. induction tok as [|c r IH]; [reflexivity|].
  cbn [Str.forallb Str.filter]. intros H.
  apply andb_prop in H. destruct H as [Hc Hr].
  apply negb_true_iff in Hc. rewrite Hc, orb_false_r.
  destruct (Chars.is_word c) eqn:Hw; [|now apply IH].
  cbn [Str.forallb]. now rewrite Hw, IH.
Qed.

Lemma parse_token_words_ok l st tok :
  token_shape tok -> words_ok st -> words_ok (parse_token l st tok).
Proof.
  intros Hshape [Hn Hw]. unfold parse_token.
  destruct (Str.starts_with "<" tok && Str.ends_with ">" tok) eqn:C1.
  - destruct (dict_lookup emotions_map _); now split.
  - destruct (Str.starts_with "[" tok && Str.ends_with "]" tok) eqn:C2;
      [now split|].
    destruct Hshape as [H|[H|H]]; [congruence|congruence|].
    destruct (clean tok) as [|c w] eqn:E; [now split|].
    split; cbn [words current_word_idx].
    + rewrite length_app, Hn. cbn. lia.
    + apply Forall_app. split; [assumption|].
      repeat constructor; [discriminate|].
      rewrite <- E. now apply clean_nonspace.
Qed.

Lemma fold_tokens_words_ok l toks : forall st,
  Forall (fun t => t <> EmptyString /\ token_shape t) toks ->
  words_ok st -> words_ok (fold_left (parse_token l) toks st).
Proof.
  induction toks as [|tok toks IH]; intros st Ht Hst; [assumption|].
  cbn [fold_left]. apply IH; [now apply Forall_inv_tail in Ht|].
  apply parse_token_words_ok; [|assumption].
  apply Forall_inv in Ht. tauto.
Qed.

Lemma parse_line_words_ok st l line :
  words_ok st -> words_ok (parse_line st l line).
Proof.
  intros Hst. unfold parse_line.
  set (st1 := if Str.is_blank line && (0 <? l) then _ else st).
  assert (H1 : words_ok st1) by (subst st1; destruct (_ && _); exact Hst).
  pose proof (fold_tokens_words_ok l (Tokens.findall line) st1
                (findall_from_shape line 0) H1) as [Hn Hw].
  split; assumption.
Qed.

Lemma parse_lines_words_ok lines : forall st l,
  words_ok st -> words_ok (parse_lines st l lines).
Proof.
  induction lines as [|line lines IH]; intros st l Hst; [assumption|].
  cbn [parse_lines]. apply IH. now apply parse_line_words_ok.
Qed.

Lemma parse_state_words_ok text : words_ok (parse_state text).
Proof.
  apply parse_lines_words_ok. split; [reflexivity|constructor].
Qed.

(** X2. Every word the parser returns is non-empty and consists of word
    characters only: no white space, punctuation or bracket survives
    the cleaning. *)
Theorem parsed_words_are_clean (text : string) :
  Forall clean_word (fst (parse_annotated_text text)).
Proof. apply parse_state_words_ok. Qed.

(** X1. The word index of every tag is at most the number of words
    returned, the indices never go back along the tag list, and the
    last tag (the image_auto tag of the last line) points just past the
    last word. *)
Theorem tag_word_indices_in_range (text : string) :
  let (ws, tgs) := parse_annotated_text text in
  Forall (fun t => word_idx t <= List.length ws) tgs
  /\ ascending 0 tgs
  /\ exists init t, tgs = init ++ [t] /\ tag_type t = image_auto_tag
                    /\ word_idx t = List.length ws.
Proof.
  unfold parse_annotated_text.
  pose proof (parse_state_words_ok text) as [Hn _].
  pose proof (parse_lines_ok (Str.split Chars.newline text) parser_init 0)
    as [Ha Hb]; [split; [exact I|constructor]|].
  fold (parse_state text) in Ha, Hb. rewrite Hn in Hb.
  split; [exact Hb|]. split; [exact Ha|].
  unfold parse_state in *.
  destruct (Str.split Chars.newline text) as [|line0 rest] eqn:E;
    [now apply split_nonempty in E|].
  assert (L : line0 :: rest <> []) by discriminate.
  rewrite (app_removelast_last line0 L) in *.
  set (pre := removelast (line0 :: rest)) in *.
  set (lst := last (line0 :: rest) line0) in *.
  clear E L.
  assert (Hsplit : forall st l,
            parse_lines st l (pre ++ [lst])
            = parse_line (parse_lines st l pre) (l + List.length pre) lst).
  { clear. induction pre as [|x pre IH]; intros st l; cbn.
    - now rewrite Nat.add_0_r.
    - rewrite IH. f_equal. lia. }
  rewrite Hsplit in *. unfold parse_line in *.
  eexists. eexists. cbn [tags add_tag]. split; [reflexivity|].
  split; [reflexivity|]. cbn [word_idx]. exact Hn.
Qed.

(** ** Paragraph indices *)

Lemma blank_count_snoc done line :
  blank_count (done ++ [line])
  = blank_count done
    + (if Str.is_blank line && (0 <? List.length done) then 1 else 0).
Proof.
  unfold blank_count. destruct done as [|x done]; cbn [app tl List.length].
  - cbn. now rewrite andb_false_r.
  - rewrite filter_app, length_app. cbn [filter].
    destruct (Str.is_blank line); cbn; lia.
Qed.

Lemma parse_token_para l st tok :
  current_para_idx (parse_token l st tok) = current_para_idx st
  /\ exists g, tags (parse_token l st tok) = tags st ++ g
               /\ Forall (fun t => l_idx t = l
                                   /\ p_idx t = current_para_idx st
                                   /\ tag_value_ok t) g.
Proof.
  unfold parse_token.
  destruct (Str.starts_with "<" tok && Str.ends_with ">" tok).
  - destruct (dict_lookup emotions_map _) as [code|] eqn:E.
    + split; [reflexivity|]. eexists. split; [reflexivity|].
      constructor; [|constructor].
      split; [reflexivity|]. split; [reflexivity|].
      unfold tag_value_ok. cbn [tag_type tag_val].
      unfold emotions_map in E. cbn in E.
      repeat match type of E with
             | (if ?b then _ else _) = _ =>
                 destruct b; [injection E as E; subst code; lia|]
             end.
      discriminate.
    + split; [reflexivity|]. exists []. now rewrite app_nil_r.
  - destruct (Str.starts_with "[" tok && Str.ends_with "]" tok).
    + split; [reflexivity|]. eexists. split; [reflexivity|].
      constructor; [|constructor]. repeat split.
    + destruct (clean tok); (split; [reflexivity|]); exists [];
        now rewrite app_nil_r.
Qed.

Lemma fold_tokens_para l toks : forall st,
  current_para_idx (fold_left (parse_token l) toks st) = current_para_idx st
  /\ exists g, tags (fold_left (parse_token l) toks st) = tags st ++ g
               /\ Forall (fun t => l_idx t = l
                                   /\ p_idx t = current_para_idx st
                                   /\ tag_value_ok t) g.
Proof.
  induction toks as [|tok toks IH]; intros st; cbn [fold_left].
  - split; [reflexivity|]. exists []. now rewrite app_nil_r.
  - destruct (IH (parse_token l st tok)) as (Hp2 & g2 & E2 & F2).
    destruct (parse_token_para l st tok) as (Hp1 & g1 & E1 & F1).
    split; [congruence|]. exists (g1 ++ g2).
    rewrite E2, E1, app_assoc. split; [reflexivity|].
    apply Forall_app. split; [assumption|].
    rewrite Hp1 in F2. exact F2.
Qed.

(** One line: the paragraph index moves by the line's blankness, and
    every new tag carries the line index and the new paragraph index;
    the last new tag is the line's image_auto tag. *)
Lemma parse_line_para st l line :
  let p := current_para_idx st
           + (if Str.is_blank line && (0 <? l) then 1 else 0) in
  current_para_idx (parse_line st l line) = p
  /\ exists g w,
       tags (parse_line st l line)
       = tags st ++ g ++ [mkTag w image_auto_tag l l p]
       /\ Forall (fun t => l_idx t = l /\ p_idx t = p /\ tag_value_ok t) g.
Proof.
  intros p. unfold parse_line.
  set (st1 := if Str.is_blank line && (0 <? l) then _ else st).
  assert (H1 : current_para_idx st1 = p /\ tags st1 = tags st).
  { subst st1 p. destruct (_ && _); cbn; split; (reflexivity || lia). }
  destruct H1 as [Hp1 Ht1].
  destruct (fold_tokens_para l (Tokens.findall line) st1)
    as (Hp2 & g & Eg & Fg).
  cbn [current_para_idx add_tag tags]. rewrite Hp2, Hp1.
  split; [reflexivity|]. exists g. eexists.
  rewrite Eg, Ht1, <- app_assoc. split; [reflexivity|].
  now rewrite Hp1 in Fg.
Qed.

Lemma firstn_prefix {A : Type} (done : list A) (x : A) (rest : list A) :
  firstn (S (List.length done)) (done ++ x :: rest) = done ++ [x].
Proof.
  induction done as [|y done IH]; [reflexivity|].
  cbn [List.length app]. rewrite firstn_cons. now rewrite IH.
Qed.

Lemma parse_lines_para rest : forall done st,
  let all := done ++ rest in
  let P t := l_idx t < List.length all
             /\ p_idx t = blank_upto all (l_idx t) /\ tag_value_ok t in
  current_para_idx st = blank_count done ->
  Forall P (tags st) ->
  current_para_idx (parse_lines st (List.length done) rest) = blank_count all
  /\ Forall P (tags (parse_lines st (List.length done) rest)).
Proof.
  induction rest as [|line rest IH]; intros done st all P Hp Ht.
  - subst all. rewrite app_nil_r. cbn. now split.
  - cbn [parse_lines].
    destruct (parse_line_para st (List.length done) line)
      as (Hp' & g & w & Eg & Fg).
    assert (Hall : (done ++ [line]) ++ rest = all)
      by (subst all; now rewrite <- app_assoc).
    assert (Hlen : List.length (done ++ [line]) = S (List.length done))
      by (rewrite length_app; cbn; lia).
    assert (Hcnt : current_para_idx (parse_line st (List.length done) line)
                   = blank_count (done ++ [line]))
      by (rewrite Hp', blank_count_snoc, Hp; reflexivity).
    specialize (IH (done ++ [line])
                   (parse_line st (List.length done) line)).
    cbv zeta in IH. rewrite Hall, Hlen in IH. apply IH; [exact Hcnt|].
    rewrite Eg. apply Forall_app. split; [exact Ht|].
    assert (Hupto : blank_upto all (List.length done)
                    = blank_count (done ++ [line])).
    { unfold blank_upto. subst all. now rewrite firstn_prefix. }
    assert (Hlt : List.length done < List.length all)
      by (subst all; rewrite length_app; cbn; lia).
    apply Forall_app. split.
    + eapply Forall_impl; [|exact Fg]. cbn.
      intros t (Hl & Hpt & Hv). subst P. cbn.
      rewrite Hl, Hpt, Hupto, <- Hcnt, Hp'. tauto.
    + repeat constructor; subst P; cbn [l_idx p_idx]; try assumption.
      * now rewrite Hupto, <- Hcnt, Hp'.
Qed.

Lemma parse_state_para text :
  let lines := Str.split Chars.newline text in
  current_para_idx (parse_state text) = blank_count lines
  /\ Forall (fun t => l_idx t < List.length lines
                      /\ p_idx t = blank_upto lines (l_idx t)
                      /\ tag_value_ok t)
            (tags (parse_state text)).
Proof.
  intros lines.
  apply (parse_lines_para lines [] parser_init); [reflexivity|constructor].
Qed.

(** X4. The paragraph index of every tag is the number of blank lines
    among lines 1 to the tag's own line: the first line never opens a
    paragraph, and each later blank line opens one (two blank lines in
    a row open two). *)
Theorem paragraph_index_counts_blank_lines (text : string) :
  let lines := Str.split Chars.newline text in
  Forall (fun t => p_idx t = blank_upto lines (l_idx t))
         (snd (parse_annotated_text text))
  /\ blank_upto lines 0 = 0
  /\ (forall l, blank_upto lines l <= blank_upto lines (S l)
                /\ blank_upto lines (S l) <= S (blank_upto lines l)).
Proof.
  intros lines. split; [|split].
  - destruct (parse_state_para text) as [_ H].
    eapply Forall_impl; [|exact H]. cbn. tauto.
  - unfold blank_upto, blank_count. destruct lines; reflexivity.
  - intros l. unfold blank_upto.
    destruct (Nat.le_gt_cases (List.length lines) (S l)) as [Hge|Hlt].
    + rewrite (firstn_all2 (n := S (S l))) by lia.
      destruct (Nat.eq_dec (List.length lines) (S l)) as [E|N].
      * rewrite <- E, firstn_all. lia.
      * rewrite (firstn_all2 (n := S l)) by lia. lia.
    + destruct (nth_error lines (S l)) as [x|] eqn:Ex;
        [|apply nth_error_None in Ex; lia].
      apply nth_error_split in Ex. destruct Ex as (l1 & l2 & E & Hl1).
      rewrite E, <- Hl1, firstn_prefix.
      rewrite firstn_app, firstn_all, Nat.sub_diag. cbn [firstn].
      rewrite app_nil_r, blank_count_snoc.
      destruct (_ && _); lia.
Qed.

Lemma group_sorted l g tail :
  Forall (on_line l) g ->
  Forall (fun t => l <= l_idx t) tail ->
  StronglySorted le (map l_idx tail) ->
  StronglySorted le (map l_idx (g ++ tail)).
Proof.
  intros Hg Hb Hs. induction Hg as [|t g [Hl _] Hg IHg]; [exact Hs|].
  cbn [app map]. constructor; [exact IHg|].
  rewrite Forall_map, Hl. apply Forall_app. split; [|exact Hb].
  eapply Forall_impl; [|exact Hg]. cbn. intros x [Hx _]. lia.
Qed.

Lemma grouped_sorted l m G :
  grouped l m G ->
  StronglySorted le (map l_idx G) /\ Forall (fun t => l <= l_idx t) G.
Proof.
  induction 1 as [|l m g w p rest Hg _ [IHs IHb]]; [split; constructor|].
  assert (Hrest : Forall (fun t => l <= l_idx t) rest)
    by (eapply Forall_impl; [|exact IHb]; cbn; intros; lia).
  split.
  - apply (group_sorted l g); [exact Hg| |].
    + constructor; [cbn; lia|exact Hrest].
    + cbn [map l_idx]. constructor; [exact IHs|].
      rewrite Forall_map. exact Hrest.
  - apply Forall_app. split.
    + eapply Forall_impl; [|exact Hg]. cbn. intros t [Hl _]. lia.
    + constructor; [cbn; lia|exact Hrest].
Qed.

(** X5. Every tag of a parsed script lies on one of the script's lines;
    an emotion tag carries a code from 0 to 5, an image or image_auto
    tag carries its own line index; the line indices never go back
    along the tag list. *)
Theorem parsed_tags_are_well_formed (text : string) :
  let n := List.length (Str.split Chars.newline text) in
  let tgs := snd (parse_annotated_text text) in
  Forall (fun t => l_idx t < n /\ tag_value_ok t) tgs
  /\ StronglySorted le (map l_idx tgs).
Proof.
  intros n tgs. split.
  - destruct (parse_state_para text) as [_ H].
    eapply Forall_impl; [|exact H]. cbn. tauto.
  - pose proof (parse_grouped text) as HG. fold n tgs in HG.
    apply (grouped_sorted 0 n tgs HG).
Qed.

(** ** Words line by line *)

Lemma parse_token_words l st tok :
  words (parse_token l st tok) = words st ++ token_words tok.
Proof.
  unfold token_words, parse_token.
  destruct (Str.starts_with "<" tok && Str.ends_with ">" tok).
  - destruct (dict_lookup emotions_map _); cbn; now rewrite app_nil_r.
  - destruct (Str.starts_with "[" tok && Str.ends_with "]" tok).
    + cbn. now rewrite app_nil_r.
    + destruct (clean tok); cbn; [now rewrite app_nil_r|reflexivity].
Qed.

Lemma fold_tokens_words l toks : forall st,
  words (fold_left (parse_token l) toks st)
  = words st ++ List.concat (map token_words toks).
Proof.
  induction toks as [|tok toks IH]; intros st; cbn [fold_left map].
  - cbn. now rewrite app_nil_r.
  - rewrite IH, parse_token_words. cbn [List.concat].
    now rewrite app_assoc.
Qed.

Lemma parse_line_words st l line :
  words (parse_line st l line) = words st ++ line_words line.
Proof.
  unfold parse_line, line_words. cbn [words add_tag].
  rewrite fold_tokens_words. now destruct (_ && _).
Qed.

Lemma parse_lines_words lines : forall st l,
  words (parse_lines st l lines)
  = words st ++ List.concat (map line_words lines).
Proof.
  induction lines as [|line lines IH]; intros st l; cbn [parse_lines map].
  - cbn. now rewrite app_nil_r.
  - rewrite IH, parse_line_words. cbn [List.concat].
    now rewrite app_assoc.
Qed.

Lemma parsed_words text :
  fst (parse_annotated_text text)
  = List.concat (map line_words (Str.split Chars.newline text)).
Proof. apply (parse_lines_words _ parser_init 0). Qed.

(** X11. The words of a script are the words of its lines, in order, and
    the words of a line depend on nothing but the line: a script made
    of two scripts joined by a line break has the words of the first
    followed by the words of the second, and a blank line has none. *)
Theorem words_compose_over_lines (a b : string) :
  fst (parse_annotated_text (a ++ nl ++ b))
  = fst (parse_annotated_text a) ++ fst (parse_annotated_text b)
  /\ fst (parse_annotated_text a)
     = List.concat (map line_words (Str.split Chars.newline a))
  /\ (forall line, Str.is_blank line = true -> line_words line = []).
Proof.
  split; [|split].
  - rewrite !parsed_words.
    change (a ++ nl ++ b)%string with (a ++ String Chars.newline b)%string.
    now rewrite split_append, map_app, concat_app.
  - apply parsed_words.
  - intros line Hb. unfold line_words.
    apply findall_blank in Hb. now rewrite Hb.
Qed.

Lemma words_compose_over_lines_witness :
  line_words ("  " ++ String (ascii_of_nat 9) "") = [].
Proof.
  apply (words_compose_over_lines "" ""). reflexivity.
Defined.

(** ** The compacted paragraph, image and pose sections *)

Lemma collapse_from_seq m : forall a evs prev,
  map ev_val evs = map VNum (seq a m) ->
  prev <> nat_str a ->
  collapse_from ev_key prev evs = evs.
Proof.
  induction m as [|m IH]; intros a evs prev Hv Hp.
  - destruct evs; [reflexivity|discriminate].
  - destruct evs as [|e evs]; [discriminate|].
    cbn [map seq] in Hv.
    assert (He : ev_val e = VNum a) by congruence.
    assert (Hv' : map ev_val evs = map VNum (seq (S a) m)) by congruence.
    cbn [collapse_from]. unfold ev_key at 1. rewrite He. cbn [value_str].
    destruct (String.eqb_spec (nat_str a) prev); [congruence|].
    f_equal. apply (IH (S a)); [exact Hv'|].
    unfold ev_key. rewrite He. cbn [value_str].
    intros E. apply nat_str_inj in E. lia.
Qed.

(** A default 0 followed by the values 0, 1, ..., m: the compactor drops
    the repeated 0 and keeps the rest. *)
Lemma collapse_default_seq m evs :
  map ev_val evs = VNum 0 :: map VNum (seq 0 (S m)) ->
  map ev_val (collapse ev_key evs) = map VNum (seq 0 (S m)).
Proof.
  destruct evs as [|b [|e0 rest]]; try discriminate.
  cbn [map seq]. intros Hv.
  assert (Hb : ev_val b = VNum 0) by congruence.
  assert (H0 : ev_val e0 = VNum 0) by congruence.
  assert (Hr : map ev_val rest = map VNum (seq 1 m)) by congruence.
  assert (Kb : ev_key b = nat_str 0) by (unfold ev_key; now rewrite Hb).
  assert (K0 : ev_key e0 = nat_str 0) by (unfold ev_key; now rewrite H0).
  cbn [collapse collapse_from]. rewrite K0, Kb, String.eqb_refl.
  rewrite (collapse_from_seq m 1 rest); [|exact Hr|].
  - cbn [map]. now rewrite Hb, Hr.
  - intros E. apply nat_str_inj in E. discriminate.
Qed.

Lemma raw_image_values text vosk_words :
  map ev_val (sec_image (resolve_tags vosk_words
                           (snd (parse_annotated_text text))))
  = VNum 0
    :: map VNum (seq 0 (List.length (Str.split Chars.newline text))).
Proof.
  unfold resolve_tags. rewrite resolve_image_values.
  cbn [last_l_idx resolver_init].
  change (-1)%Z with (Z.of_nat 0 - 1)%Z.
  now rewrite (image_values_grouped 0 _ _ (parse_grouped text)).
Qed.

(** X7. In the compacted schedule of a script of n lines the image
    section holds exactly n events, with the values 0, 1, ..., n-1: one
    event per line, blank lines included, whatever the timings are. *)
Theorem final_image_section_lists_lines (full_text : string)
  (vosk_words : list timed_word) (mouthCues : list mouth_cue) :
  let n := List.length (Str.split Chars.newline full_text) in
  map ev_val (nth 2 (final_events full_text vosk_words mouthCues) [])
  = map VNum (seq 0 n)
  /\ List.length (nth 2 (final_lines full_text vosk_words mouthCues) []) = n.
Proof.
  intros n.
  assert (Hn : exists m, n = S m).
  { subst n. destruct (Str.split Chars.newline full_text) eqn:E;
      [now apply split_nonempty in E|eexists; reflexivity]. }
  destruct Hn as [m Hm].
  assert (Hv : map ev_val
                 (nth 2 (final_events full_text vosk_words mouthCues) [])
               = map VNum (seq 0 n)).
  { unfold final_events, raw_sections. cbn [map nth].
    rewrite Hm. apply collapse_default_seq. rewrite <- Hm.
    apply raw_image_values. }
  split; [exact Hv|].
  rewrite final_lines_events.
  change (@nil string) with (map line_of_event []).
  rewrite map_nth, length_map.
  rewrite <- (length_map ev_val), Hv, length_map, length_seq. reflexivity.
Qed.

Lemma para_values_line p w v l rest g :
  Forall (fun t => p_idx t = p) g ->
  forall last_p,
    para_values last_p (g ++ mkTag w image_auto_tag v l p :: rest)
    = (if (last_p =? Z.of_nat p)%Z then [] else [p])
        ++ para_values (Z.of_nat p) rest.
Proof.
  induction 1 as [|t g Hp _ IH]; intros last_p; cbn [app para_values].
  - cbn [tag_type is_image_kind p_idx]. rewrite (Z.eqb_sym last_p).
    destruct (Z.eqb_spec (Z.of_nat p) last_p) as [E|E];
      [rewrite <- E|]; reflexivity.
  - rewrite Hp.
    destruct (is_image_kind (tag_type t)); [|apply IH].
    rewrite (Z.eqb_sym last_p).
    destruct (Z.eqb_spec (Z.of_nat p) last_p) as [E|E].
    + rewrite IH, <- E, Z.eqb_refl. reflexivity.
    + rewrite IH, Z.eqb_refl. reflexivity.
Qed.

Lemma paragraphs_le last_p G fin : paragraphs last_p G fin -> (last_p <= fin)%Z.
Proof. induction 1; lia. Qed.

Lemma para_values_paragraphs last_p G fin :
  paragraphs last_p G fin -> (-1 <= last_p)%Z ->
  para_values last_p G
  = seq (Z.to_nat (last_p + 1)) (Z.to_nat (fin - last_p)).
Proof.
  induction 1 as [last_p|last_p p g w v l rest fin Hstep Hg Hrest IH];
    intros Hlo.
  - now rewrite Z.sub_diag.
  - rewrite (para_values_line p w v l rest g Hg), IH by lia.
    pose proof (paragraphs_le _ _ _ Hrest) as Hle.
    destruct Hstep as [E|E].
    + rewrite <- E, Z.eqb_refl. reflexivity.
    + destruct (Z.eqb_spec last_p (Z.of_nat p)); [lia|].
      replace (Z.to_nat (fin - last_p))
        with (S (Z.to_nat (fin - Z.of_nat p))) by lia.
      cbn [app seq]. f_equal; [lia|]. f_equal. lia.
Qed.

Lemma resolve_para_values vosk_words tgs : forall st,
  map ev_val (sec_paragraph (fold_left (resolve_tag vosk_words) tgs st))
  = map ev_val (sec_paragraph st)
    ++ map VNum (para_values (last_p_idx st) tgs).
Proof.
  induction tgs as [|tg tgs IH]; intros st; cbn [fold_left para_values].
  - now rewrite app_nil_r.
  - rewrite IH. unfold resolve_tag, on_paragraph_change, on_line_change.
    destruct (tag_type tg); cbn [is_image_kind]; try reflexivity.
    all: destruct (Z.of_nat (l_idx tg) =? last_l_idx st)%Z;
      cbn [negb last_p_idx sec_paragraph].
    all: destruct (Z.of_nat (p_idx tg) =? last_p_idx st)%Z;
      cbn [negb last_p_idx sec_paragraph];
      rewrite ?map_app, <- ?app_assoc; reflexivity.
Qed.

Lemma parse_lines_paragraphs lines : forall st l,
  exists G,
    tags (parse_lines st l lines) = tags st ++ G
    /\ paragraphs (para_before st l) G
                  (para_before (parse_lines st l lines)
                               (l + List.length lines)).
Proof.
  induction lines as [|line lines IH]; intros st l; cbn [parse_lines].
  - exists []. rewrite app_nil_r, Nat.add_0_r. split; [reflexivity|].
    constructor.
  - destruct (parse_line_para st l line) as (Hp & g & w & Eg & Fg).
    destruct (IH (parse_line st l line) (S l)) as (G & EG & HG).
    exists (g ++ mkTag w image_auto_tag l l
                   (current_para_idx st
                    + (if Str.is_blank line && (0 <? l) then 1 else 0))
              :: G).
    split; [rewrite EG, Eg, <- !app_assoc; reflexivity|].
    cbn [List.length]. rewrite Nat.add_succ_r.
    apply paragraphs_line.
    + unfold para_before. destruct l as [|l]; cbn [Nat.eqb Nat.ltb Nat.leb].
      * rewrite andb_false_r. lia.
      * destruct (Str.is_blank line); cbn [andb]; lia.
    + eapply Forall_impl; [|exact Fg]. cbn. tauto.
    + unfold para_before at 1 in HG. cbn [Nat.eqb] in HG.
      rewrite Hp, Z.sub_0_r in HG. exact HG.
Qed.

Lemma raw_paragraph_values text vosk_words :
  map ev_val (sec_paragraph (resolve_tags vosk_words
                               (snd (parse_annotated_text text))))
  = VNum 0
    :: map VNum (seq 0 (S (blank_count (Str.split Chars.newline text)))).
Proof.
  unfold resolve_tags. rewrite resolve_para_values.
  change (map ev_val (sec_paragraph resolver_init)) with [VNum 0].
  change (last_p_idx resolver_init) with (-1)%Z.
  cbn [app]. f_equal. f_equal.
  destruct (parse_lines_paragraphs (Str.split Chars.newline text)
              parser_init 0) as (G & EG & HG).
  change (para_before parser_init 0) with (-1)%Z in HG.
  unfold parse_annotated_text, parse_state. cbn [snd].
  rewrite EG. cbn [tags parser_init app].
  destruct (parse_state_para text) as [HP _]. cbv zeta in HP.
  unfold parse_state in HP.
  assert (Hfin : para_before
                   (parse_lines parser_init 0 (Str.split Chars.newline text))
                   (0 + List.length (Str.split Chars.newline text))
                 = Z.of_nat (blank_count (Str.split Chars.newline text))).
  { unfold para_before. rewrite HP.
    destruct (Str.split Chars.newline text) eqn:E;
      [now apply split_nonempty in E|].
    cbn [List.length Nat.add Nat.eqb]. lia. }
  rewrite Hfin in HG.
  rewrite (para_values_paragraphs _ _ _ HG) by lia.
  f_equal; lia.
Qed.

(** X6. In the compacted schedule the paragraph section holds the values
    0, 1, ..., P, each once, where P is the number of blank lines after
    the first line of the script: the default stands for paragraph 0
    and every later blank line adds one paragraph event. *)
Theorem final_paragraph_section_lists_paragraphs (full_text : string)
  (vosk_words : list timed_word) (mouthCues : list mouth_cue) :
  let P := blank_count (Str.split Chars.newline full_text) in
  map ev_val (nth 0 (final_events full_text vosk_words mouthCues) [])
  = map VNum (seq 0 (S P))
  /\ List.length (nth 0 (final_lines full_text vosk_words mouthCues) [])
     = S P.
Proof.
  intros P.
  assert (Hv : map ev_val
                 (nth 0 (final_events full_text vosk_words mouthCues) [])
               = map VNum (seq 0 (S P))).
  { unfold final_events, raw_sections. cbn [map nth].
    apply collapse_default_seq, raw_paragraph_values. }
  split; [exact Hv|].
  rewrite final_lines_events.
  change (@nil string) with (map line_of_event []).
  rewrite map_nth, length_map.
  rewrite <- (length_map ev_val), Hv, length_map, length_seq. reflexivity.
Qed.

(** X15. The compactor never removes a pose line, whatever the tags
    are: consecutive pose values always differ, so the pose section is
    written as the resolver built it. *)
Theorem pose_section_is_never_compacted (vosk_words : list timed_word)
  (tgs : list tag) :
  let pose_lines :=
    map line_of_event (sec_pose (resolve_tags vosk_words tgs)) in
  unique_lines pose_lines = pose_lines.
Proof.
  intros pose_lines. subst pose_lines.
  destruct (resolve_tags_render vosk_words tgs) as (_ & _ & _ & Hr).
  destruct (resolve_tags_pose_inv vosk_words tgs) as (_ & _ & Hv & _).
  rewrite (unique_lines_events _ Hr). f_equal.
  exact (collapse_cycle _ _ Hv).
Qed.

(** ** More on the compactor *)

Lemma collapse_from_idem {A : Type} (key : A -> string) (l : list A) :
  forall prev,
    collapse_from key prev (collapse_from key prev l)
    = collapse_from key prev l.
Proof.
  induction l as [|x l IH]; intros prev; cbn [collapse_from];
    [reflexivity|].
  destruct (String.eqb (key x) prev) eqn:E; [apply IH|].
  cbn [collapse_from]. rewrite E. f_equal. apply IH.
Qed.

Lemma collapse_from_incl {A : Type} (key : A -> string) (l : list A) :
  forall prev x, In x (collapse_from key prev l) -> In x l.
Proof.
  induction l as [|y l IH]; intros prev x; cbn [collapse_from];
    [tauto|].
  destruct (String.eqb (key y) prev).
  - intros H. right. now apply IH in H.
  - intros [H|H]; [now left|right; now apply IH in H].
Qed.

Lemma collapse_from_length {A : Type} (key : A -> string) (l : list A) :
  forall prev, List.length (collapse_from key prev l) <= List.length l.
Proof.
  induction l as [|y l IH]; intros prev; cbn [collapse_from List.length];
    [lia|].
  destruct (String.eqb (key y) prev); cbn [List.length];
    [specialize (IH prev)|specialize (IH (key y))]; lia.
Qed.

(** X8. Compacting is idempotent, only drops lines and never adds or
    reorders any: compacting a compacted section changes nothing, every
    line kept is a line of the input, and the output is no longer than
    the input. *)
Theorem compactor_idempotent_and_only_drops (section_lines : list string) :
  unique_lines (unique_lines section_lines) = unique_lines section_lines
  /\ (forall line, In line (unique_lines section_lines) ->
                  In line section_lines)
  /\ List.length (unique_lines section_lines) <= List.length section_lines.
Proof.
  rewrite !unique_lines_collapse.
  destruct section_lines as [|x l];
    [split; [reflexivity|split; [intros line []|cbn; lia]]|].
  cbn [collapse]. split; [|split].
  - f_equal. apply collapse_from_idem.
  - intros line [H|H]; [now left|right].
    now apply collapse_from_incl in H.
  - cbn [List.length]. pose proof (collapse_from_length line_value l
                                     (line_value x)). lia.
Qed.

Lemma compactor_idempotent_and_only_drops_witness :
  In "0.500,emotion,1"
     ["0.000,emotion,0"; "0.500,emotion,1"; "0.900,emotion,1"].
Proof.
  apply (compactor_idempotent_and_only_drops
           ["0.000,emotion,0"; "0.500,emotion,1"; "0.900,emotion,1"]).
  vm_compute. tauto.
Defined.

Lemma last_nonempty_default {A : Type} (l : list A) (d d' : A) :
  l <> [] -> last l d = last l d'.
Proof.
  induction l as [|x l IH]; [contradiction|]. intros _.
  destruct l as [|y l]; [reflexivity|].
  change (last (x :: y :: l) d) with (last (y :: l) d).
  change (last (x :: y :: l) d') with (last (y :: l) d').
  apply IH. discriminate.
Qed.

Lemma unique_lines_app pre post :
  exists more, unique_lines (pre ++ post) = unique_lines pre ++ more.
Proof.
  unfold unique_lines. rewrite fold_left_app.
  generalize (fold_left compact_step pre ([], None)). intros acc.
  revert acc. induction post as [|x post IH]; intros [u v]; cbn [fold_left].
  - exists []. now rewrite app_nil_r.
  - unfold compact_step at 2. destruct v as [v|].
    + destruct (String.eqb (line_value x) v).
      * apply IH.
      * destruct (IH (u ++ [x], Some (line_value x))) as [more E].
        exists (x :: more). cbn [fst] in *. now rewrite E, <- app_assoc.
    + destruct (IH (u ++ [x], Some (line_value x))) as [more E].
      exists (x :: more). cbn [fst] in *. now rewrite E, <- app_assoc.
Qed.

(** X9. Compaction is done on the fly and never changes the value in
    force: the compaction of a section's first lines is the beginning
    of the compaction of the whole section, and after any line of the
    section the last line kept carries the value of that line. *)
Theorem compactor_preserves_value_in_force (pre : list string)
  (x : string) (post : list string) (d : string) :
  line_value (last (unique_lines (pre ++ [x])) d) = line_value x
  /\ exists more,
       unique_lines (pre ++ [x] ++ post) = unique_lines (pre ++ [x]) ++ more.
Proof.
  split.
  - rewrite unique_lines_collapse. destruct pre as [|y rest].
    + reflexivity.
    + change ((y :: rest) ++ [x]) with (y :: rest ++ [x]).
      rewrite collapse_snoc.
      assert (Hne : collapse line_value (y :: rest) <> [])
        by (cbn; discriminate).
      destruct (String.eqb_spec
                  (line_value x)
                  (line_value (last (collapse line_value (y :: rest)) y)))
        as [E|E].
      * rewrite app_nil_r, E. f_equal.
        now apply last_nonempty_default.
      * now rewrite last_last.
  - rewrite app_assoc. apply unique_lines_app.
Qed.

(** ** Reading the written file back *)

Lemma uint_without_newline d :
  without Chars.newline (NilEmpty.string_of_uint d).
Proof. unfold without. induction d; simpl; auto. Qed.

Lemma time_str_without_newline t : without Chars.newline (time_str t).
Proof.
  unfold without, time_str, pad3, nat_str.
  rewrite !forallb_append, !uint_without_newline.
  destruct (t <? 0)%Z; destruct (_ <? 100); destruct (_ <? 10); reflexivity.
Qed.

Lemma plain_event e :
  without Chars.newline (value_str (ev_val e)) ->
  plain_line (line_of_event e).
Proof.
  intros Hv. unfold plain_line, line_of_event. split.
  - intros E.
    assert (C : Str.forallb (fun c => negb (Ascii.eqb c Chars.comma))
                  (time_str (ev_time e) ++ "," ++ category_name (ev_cat e)
                   ++ "," ++ value_str (ev_val e)) = false).
    { rewrite forallb_append. cbn. apply andb_false_r. }
    rewrite E in C. discriminate.
  - unfold without in *.
    rewrite !forallb_append, time_str_without_newline, Hv.
    destruct (ev_cat e); reflexivity.
Qed.

Lemma plain_num t c n : plain_line (line_of_event (mkEvent t c (VNum n))).
Proof. apply plain_event. apply uint_without_newline. Qed.

Lemma plain_phoneme cue : plain_line (line_of_event (phoneme_event cue)).
Proof.
  apply plain_event. unfold phoneme_event. cbn [ev_val value_str].
  rewrite rhubarb_shape_spec. unfold spec_shape.
  repeat match goal with
         | |- context [String.eqb ?a ?k] => destruct (String.eqb a k)
         end; reflexivity.
Qed.

Lemma resolve_tags_plain vosk_words tgs :
  all_plain (resolve_tags vosk_words tgs).
Proof.
  apply resolve_tags_ind.
  - repeat split; repeat constructor; apply plain_num.
  - intros st tg (Hp & He & Hi & Ho). unfold all_plain.
    step_cases; (split; [|split; [|split]]);
      try assumption; apply Forall_app; split; try assumption;
      repeat constructor; apply plain_num.
Qed.

Lemma unique_lines_Forall (P : string -> Prop) ls :
  Forall P ls -> Forall P (unique_lines ls).
Proof.
  rewrite unique_lines_collapse. intros H.
  destruct H as [|x l Hx Hl]; cbn [collapse]; constructor;
    [assumption|now apply collapse_from_Forall].
Qed.

Lemma final_lines_plain full_text vosk_words mouthCues :
  Forall (Forall plain_line) (final_lines full_text vosk_words mouthCues).
Proof.
  unfold final_lines, schedule_lines, raw_sections.
  generalize (snd (parse_annotated_text full_text)). intros tgs.
  destruct (resolve_tags_plain vosk_words tgs) as (Hp & He & Hi & Ho).
  cbn [map].
  repeat (constructor;
          [apply unique_lines_Forall; rewrite Forall_map; assumption|]).
  constructor; [|constructor].
  apply unique_lines_Forall. rewrite phoneme_events_map, !Forall_map.
  apply Forall_forall. intros cue _. apply plain_phoneme.
Qed.

Lemma split_join kept :
  Forall (without Chars.newline) kept ->
  Str.split Chars.newline (Str.join nl kept) = rows kept.
Proof.
  induction 1 as [|x l Hx Hl IH]; [reflexivity|].
  destruct l as [|y l].
  - cbn [Str.join rows]. now apply split_without.
  - change (Str.join nl (x :: y :: l))
      with (x ++ String Chars.newline (Str.join nl (y :: l)))%string.
    rewrite split_append, IH, (split_without _ _ Hx). reflexivity.
Qed.

Lemma split_emit kept : forall i,
  Forall (Forall (without Chars.newline)) kept ->
  Str.split Chars.newline (emit_sections i kept) = document_rows i kept.
Proof.
  induction kept as [|s rest IH]; intros i Hk; [reflexivity|].
  cbn [emit_sections document_rows].
  change (Str.join nl s ++ nl ++ ?x)%string
    with (Str.join nl s ++ String Chars.newline x)%string.
  rewrite split_append, split_join by now apply Forall_inv in Hk.
  f_equal. apply Forall_inv_tail in Hk.
  destruct (i <? 4).
  - change (("SECTION" ++ nl) ++ emit_sections (S i) rest)%string
      with ("SECTION" ++ String Chars.newline (emit_sections (S i) rest))%string.
    rewrite split_append, IH by assumption. reflexivity.
  - cbn [append app]. now apply IH.
Qed.

Lemma count_plain (sec : list string) :
  Forall plain_line sec -> count_occ string_dec (rows sec) "SECTION" = 0.
Proof.
  intros H. apply count_occ_not_In. intros Hin.
  destruct sec as [|x l]; cbn [rows] in Hin.
  - destruct Hin as [E|[]]. discriminate.
  - rewrite Forall_forall in H. apply H in Hin. destruct Hin as [Hne _].
    now apply Hne.
Qed.

(** X10. The written file can be read back: split at its line breaks it
    gives the compacted lines of the paragraph, emotion, image and pose
    sections, each followed by a SECTION row, then the compacted
    phoneme lines (one empty row when there is no cue) and the empty
    row after the final line break. No schedule line holds a line
    break or reads SECTION, so the file has exactly four SECTION rows
    and they delimit the sections. *)
Theorem schedule_document_reads_back (full_text : string)
  (vosk_words : list timed_word) (mouthCues : list mouth_cue) :
  exists p e i po ph,
    final_lines full_text vosk_words mouthCues = [p; e; i; po; ph]
    /\ Str.split Chars.newline
         (schedule_document full_text vosk_words mouthCues)
       = p ++ ["SECTION"] ++ e ++ ["SECTION"] ++ i ++ ["SECTION"]
           ++ po ++ ["SECTION"] ++ rows ph ++ [EmptyString]
    /\ Forall (Forall plain_line) [p; e; i; po; ph]
    /\ count_occ string_dec
         (Str.split Chars.newline
            (schedule_document full_text vosk_words mouthCues))
         "SECTION" = 4.
Proof.
  pose proof (final_lines_plain full_text vosk_words mouthCues) as Hplain.
  assert (Hdoc : Str.split Chars.newline
                   (schedule_document full_text vosk_words mouthCues)
                 = document_rows 0
                     (final_lines full_text vosk_words mouthCues)).
  { rewrite schedule_document_final. apply split_emit.
    eapply Forall_impl; [|exact Hplain]. cbn. intros sec Hsec.
    eapply Forall_impl; [|exact Hsec]. cbn. intros l [_ H]. exact H. }
  rewrite Hdoc. clear Hdoc. revert Hplain.
  rewrite final_lines_events. unfold final_events, raw_sections.
  generalize (snd (parse_annotated_text full_text)). intros tgs.
  destruct (resolve_tags_headed vosk_words tgs)
    as ([p Hp] & [e He] & [i Hi] & [po Ho]).
  rewrite Hp, He, Hi, Ho. cbn [map collapse].
  intros Hplain. do 5 eexists. split; [reflexivity|].
  split; [reflexivity|]. split; [exact Hplain|].
  cbn [document_rows Nat.ltb Nat.leb rows].
  pose proof (Forall_inv Hplain) as H0.
  pose proof (Forall_inv (Forall_inv_tail Hplain)) as H1.
  pose proof (Forall_inv (Forall_inv_tail (Forall_inv_tail Hplain))) as H2.
  pose proof (Forall_inv (Forall_inv_tail (Forall_inv_tail
                (Forall_inv_tail Hplain)))) as H3.
  pose proof (Forall_inv (Forall_inv_tail (Forall_inv_tail
                (Forall_inv_tail (Forall_inv_tail Hplain))))) as H4.
  apply count_plain in H0, H1, H2, H3, H4.
  cbn [rows] in H0, H1, H2, H3.
  rewrite !count_occ_app, H0, H1, H2, H3, H4. reflexivity.
Qed.

(** ** The word list of [run_vosk] *)

Lemma collect_fold {A : Type} (results : list (option (list A))) :
  forall acc,
    fold_left collect_result results acc
    = acc ++ List.concat (map (fun r => match r with
                                        | Some ws => ws
                                        | None => []
                                        end) results).
Proof.
  induction results as [|r results IH]; intros acc; cbn [fold_left map].
  - cbn. now rewrite app_nil_r.
  - rewrite IH. cbn [List.concat]. destruct r as [ws|]; cbn [collect_result].
    + rewrite (fold_left_snoc (fun w => w)), map_id, app_assoc. reflexivity.
    + reflexivity.
Qed.

(** X12. The word list [run_vosk] returns holds the entries of the
    results that have a ['result'] key, in the order of the results and
    of their entries; a result without the key adds nothing. Collecting
    two batches of results one after the other gives the two word
    lists one after the other, so no word is lost, repeated or moved. *)
Theorem collected_words_keep_order {A : Type}
  (r1 r2 : list (option (list A))) :
  collect_words (r1 ++ r2) = collect_words r1 ++ collect_words r2
  /\ (forall ws, collect_words (Some ws :: r2) = ws ++ collect_words r2)
  /\ collect_words (None :: r2) = collect_words r2
  /\ List.length (collect_words r1)
     = list_sum (map (fun r => match r with
                               | Some ws => List.length ws
                               | None => 0
                               end) r1).
Proof.
  unfold collect_words. split; [|split; [|split]].
  - rewrite !collect_fold. cbn [app]. now rewrite map_app, concat_app.
  - intros ws. now rewrite !collect_fold.
  - now rewrite !collect_fold.
  - rewrite collect_fold. cbn [app].
    induction r1 as [|r r1 IH]; [reflexivity|].
    cbn [map List.concat list_sum]. rewrite length_app, IH.
    now destruct r.
Qed.

(** ** The time lookup on chronological timings *)

(** X13. On chronological word timings the time given to a tag never
    decreases with the word index, lies between 0.000 and the end of
    the last timed word, and is that end for every index from the
    number of timed words on. *)
Theorem tag_times_follow_speech (vosk_words : list timed_word) :
  chronological 0 vosk_words ->
  (forall i j, i <= j ->
     (start_time vosk_words i <= start_time vosk_words j)%Z)
  /\ (forall i,
        (0 <= start_time vosk_words i
         <= start_time vosk_words (List.length vosk_words))%Z)
  /\ (forall i, List.length vosk_words <= i ->
        start_time vosk_words i
        = last (map tw_end vosk_words) 0%Z).
Proof.
  intros Hc.
  assert (Hmono : forall i j, i <= j ->
            (start_time vosk_words i <= start_time vosk_words j)%Z).
  { intros i j Hij. rewrite !start_time_clamp. now apply clamp_mono. }
  assert (Hpast : forall i, List.length vosk_words <= i ->
            start_time vosk_words i = last (map tw_end vosk_words) 0%Z).
  { intros i Hi. rewrite start_time_clamp. unfold clamp.
    assert (E : nth_error vosk_words i = None) by now apply nth_error_None.
    now rewrite E. }
  split; [exact Hmono|]. split; [|exact Hpast].
  intros i. split.
  - rewrite start_time_clamp. now apply clamp_lower.
  - destruct (Nat.le_gt_cases i (List.length vosk_words)) as [H|H].
    + now apply Hmono.
    + rewrite (Hpast i), (Hpast (List.length vosk_words)); lia.
Qed.

Lemma tag_times_follow_speech_witness :
  (start_time Scenario.timed 1 <= start_time Scenario.timed 2)%Z
  /\ start_time Scenario.timed 9 = 1500%Z.
Proof.
  destruct (tag_times_follow_speech Scenario.timed) as (Hm & _ & Hp).
  - simpl. lia.
  - split; [apply Hm; lia|apply Hp; simpl; lia].
Defined.

(** ** Which tokens become words *)

Lemma token_words_cases tok :
  token_words tok = if is_word_token tok then [clean tok] else [].
Proof.
  unfold token_words, is_word_token, parse_token.
  destruct (Str.starts_with "<" tok && Str.ends_with ">" tok).
  - now destruct (dict_lookup emotions_map _).
  - destruct (Str.starts_with "[" tok && Str.ends_with "]" tok);
      [reflexivity|].
    now destruct (clean tok).
Qed.

Lemma concat_token_words toks :
  List.concat (map token_words toks)
  = map clean (filter is_word_token toks).
Proof.
  induction toks as [|tok toks IH]; [reflexivity|].
  cbn [map List.concat filter]. rewrite IH, token_words_cases.
  now destruct (is_word_token tok).
Qed.

Lemma parse_token_counts l st tok :
  words (parse_token l st tok)
  = words st ++ (if is_word_token tok then [clean tok] else [])
  /\ current_word_idx (parse_token l st tok)
     = current_word_idx st + (if is_word_token tok then 1 else 0).
Proof.
  unfold is_word_token, parse_token.
  destruct (Str.starts_with "<" tok && Str.ends_with ">" tok).
  - destruct (dict_lookup emotions_map _); cbn;
      now rewrite app_nil_r, Nat.add_0_r.
  - destruct (Str.starts_with "[" tok && Str.ends_with "]" tok).
    + cbn. now rewrite app_nil_r, Nat.add_0_r.
    + destruct (clean tok); cbn.
      * now rewrite app_nil_r, Nat.add_0_r.
      * split; [reflexivity|lia].
Qed.

Lemma clean_empty_iff tok :
  Str.forallb (fun c => negb (Chars.is_space c)) tok = true ->
  (clean tok = EmptyString
   <-> Str.forallb (fun c => negb (Chars.is_word c)) tok = true).
Proof.
  unfold clean. induction tok as [|c r IH]; [now split|].
  cbn [Str.forallb Str.filter]. intros H.
  apply andb_prop in H. destruct H as [Hc Hr].
  apply negb_true_iff in Hc. rewrite Hc, orb_false_r.
  destruct (Chars.is_word c); cbn [negb andb].
  - split; discriminate.
  - now apply IH.
Qed.

(** X14. The words the parser returns are the cleaned forms of the
    tokens that are neither angle-bracketed nor square-bracketed and
    that keep at least one character once cleaned, in reading order;
    such a token adds exactly one word and advances the word index by
    one, every other token adds none and leaves the index alone.
    Cleaning keeps the characters of the regex class \w (letters,
    digits and the underscore) and white space, so a token free of
    white space cleans to nothing exactly when it holds no \w
    character: "--" adds no word, "___" adds one. *)
Theorem words_are_cleaned_plain_tokens (text : string) :
  fst (parse_annotated_text text)
  = map clean
        (filter is_word_token
                (List.concat (map Tokens.findall
                                  (Str.split Chars.newline text))))
  /\ (forall l st tok,
        words (parse_token l st tok)
        = words st ++ (if is_word_token tok then [clean tok] else [])
        /\ current_word_idx (parse_token l st tok)
           = current_word_idx st + (if is_word_token tok then 1 else 0))
  /\ (forall tok,
        Str.forallb (fun c => negb (Chars.is_space c)) tok = true ->
        (clean tok = EmptyString
         <-> Str.forallb (fun c => negb (Chars.is_word c)) tok = true))
  /\ Chars.is_word "_" = true
  /\ parse_annotated_text "___ a_b -- _"
     = (["___"; "a_b"; "_"], [mkTag 3 image_auto_tag 0 0 0]).
Proof.
  split; [|split; [apply parse_token_counts|
                   split; [apply clean_empty_iff|split; reflexivity]]].
  rewrite parsed_words.
  induction (Str.split Chars.newline text) as [|line lines IH];
    [reflexivity|].
  cbn [map List.concat]. rewrite IH, filter_app, map_app.
  f_equal. apply concat_token_words.
Qed.

Lemma words_are_cleaned_plain_tokens_witness :
  clean "--" = EmptyString /\ clean "___" <> EmptyString.
Proof.
  destruct (words_are_cleaned_plain_tokens "") as (_ & _ & H & _).
  split.
  - apply (H "--"); reflexivity.
  - intros E. apply (H "___") in E; [discriminate E|reflexivity].
Defined.

(** ** Square markers and unterminated brackets *)

Lemma span_all p s :
  Str.forallb p s = true -> Str.span p s = (s, EmptyString).
Proof.
  induction s as [|c s IH]; cbn [Str.forallb Str.span]; [reflexivity|].
  intros H. apply andb_prop in H. destruct H as [Hc Hs].
  now rewrite Hc, (IH Hs).
Qed.

Lemma ends_with_without c s : without c s -> Str.ends_with c s = false.
Proof.
  unfold without. induction s as [|d s IH]; [reflexivity|].
  cbn [Str.forallb]. intros H. apply andb_prop in H. destruct H as [Hd Hs].
  destruct s as [|e s].
  - cbn. now apply negb_true_iff in Hd.
  - rewrite ends_with_cons by discriminate. now apply IH.
Qed.

Lemma filter_all p s :
  Str.forallb p s = true -> Str.filter p s = s.
Proof.
  induction s as [|c s IH]; cbn [Str.forallb Str.filter]; [reflexivity|].
  intros H. apply andb_prop in H. destruct H as [Hc Hs].
  now rewrite Hc, (IH Hs).
Qed.

Lemma forallb_impl (p q : ascii -> bool) s :
  (forall c, p c = true -> q c = true) ->
  Str.forallb p s = true -> Str.forallb q s = true.
Proof.
  intros Hpq. induction s as [|c s IH]; cbn [Str.forallb]; [reflexivity|].
  intros H. apply andb_prop in H. destruct H as [Hc Hs].
  now rewrite (Hpq c Hc), (IH Hs).
Qed.

(** A word character is no white space, bracket or line break. *)
Lemma is_word_plain c :
  Chars.is_word c = true ->
  Chars.is_space c = false
  /\ Ascii.eqb c ">" = false /\ Ascii.eqb c "]" = false
  /\ Ascii.eqb c Chars.newline = false.
Proof.
  intros H. rewrite <- (ascii_nat_embedding c) in *.
  pose proof (nat_ascii_bounded c) as Hb.
  set (n := nat_of_ascii c) in *. clearbody n.
  do 256 (destruct n as [|n]; [revert H; vm_compute; intros H;
                               try discriminate H; now repeat split|]).
  lia.
Qed.

Lemma findall_square name :
  name <> EmptyString -> without "]" name ->
  Tokens.findall ("[" ++ name ++ "]") = [("[" ++ name ++ "]")%string].
Proof.
  intros Hne Hsq. unfold Tokens.findall.
  change ("[" ++ name ++ "]")%string with (String "[" (name ++ "]")).
  cbn [Tokens.findall_from].
  unfold Tokens.match_token, Tokens.match_delimited.
  cbn [Ascii.eqb Bool.eqb]. rewrite (span_until "]" name EmptyString Hsq).
  destruct name as [|i inner]; [contradiction|].
  f_equal. apply findall_from_skip.
  cbn [String.length]. lia.
Qed.

(** X16. A square marker alone on a script line, whatever stands between
    the brackets (at least one character, no closing bracket, no line
    break), yields no word and two tags at word index 0: the image tag
    of the marker and the image_auto tag of the line, both carrying
    the line index. The interior is never looked at. *)
Theorem square_marker_line (name : string) :
  name <> EmptyString -> without "]" name -> without Chars.newline name ->
  parse_annotated_text ("[" ++ name ++ "]")
  = ([], [mkTag 0 image_tag 0 0 0; mkTag 0 image_auto_tag 0 0 0]).
Proof.
  intros Hne Hsq Hnl.
  set (token := ("[" ++ name ++ "]")%string).
  assert (Hline : Str.split Chars.newline token = [token]).
  { apply split_single. unfold token, without.
    rewrite !forallb_append. cbn. now rewrite Hnl. }
  assert (Hf : Tokens.findall token = [token]) by now apply findall_square.
  assert (Htok : parse_token 0 parser_init token
                 = add_tag parser_init (mkTag 0 image_tag 0 0 0)).
  { unfold parse_token, token.
    change ("[" ++ name ++ "]")%string with (String "[" (name ++ "]")).
    cbn [Str.starts_with Ascii.eqb Bool.eqb andb].
    change (String "[" (name ++ "]")) with ("[" ++ (name ++ "]"))%string.
    rewrite <- append_assoc, ends_with_append. reflexivity. }
  unfold parse_annotated_text, parse_state. rewrite Hline.
  cbn [parse_lines]. unfold parse_line.
  replace (Str.is_blank token && (0 <? 0)) with false
    by (now rewrite andb_false_r).
  rewrite !Hf. cbn [fold_left]. rewrite !Htok. reflexivity.
Qed.

Lemma square_marker_line_witness :
  parse_annotated_text "[the lake, at dawn]"
  = ([], [mkTag 0 image_tag 0 0 0; mkTag 0 image_auto_tag 0 0 0]).
Proof.
  apply (square_marker_line "the lake, at dawn");
    [discriminate|reflexivity|reflexivity].
Defined.

(** X17. An unterminated bracket is not an error: a script line made of
    an opening angle or square bracket followed by word characters is
    one token, the bracket is stripped as punctuation, and the rest is
    returned as a word; no emotion or image tag is produced. *)
Theorem unterminated_bracket_becomes_word (opn : ascii) (w : string) :
  opn = "<"%char \/ opn = "["%char ->
  w <> EmptyString -> Str.forallb Chars.is_word w = true ->
  parse_annotated_text (String opn w)
  = ([w], [mkTag 1 image_auto_tag 0 0 0]).
Proof.
  intros Hopn Hne Hw.
  assert (Hsp : Str.forallb (fun c => negb (Chars.is_space c)) w = true).
  { apply (forallb_impl Chars.is_word); [|exact Hw].
    intros c Hc. apply is_word_plain in Hc. destruct Hc as [Hc _].
    now rewrite Hc. }
  assert (Hgt : without ">" w).
  { apply (forallb_impl Chars.is_word); [|exact Hw].
    intros c Hc. apply is_word_plain in Hc. destruct Hc as (_ & Hc & _).
    now rewrite Hc. }
  assert (Hsq : without "]" w).
  { apply (forallb_impl Chars.is_word); [|exact Hw].
    intros c Hc. apply is_word_plain in Hc. destruct Hc as (_ & _ & Hc & _).
    now rewrite Hc. }
  assert (Hnl : without Chars.newline w).
  { apply (forallb_impl Chars.is_word); [|exact Hw].
    intros c Hc. apply is_word_plain in Hc. destruct Hc as (_ & _ & _ & Hc).
    now rewrite Hc. }
  set (token := String opn w).
  assert (Hline : Str.split Chars.newline token = [token]).
  { apply split_single. unfold token, without. cbn [Str.forallb].
    rewrite Hnl. destruct Hopn; subst opn; reflexivity. }
  assert (Hf : Tokens.findall token = [token]).
  { unfold Tokens.findall, token. cbn [Tokens.findall_from].
    assert (Hm : Tokens.match_token (String opn w) = Some (String opn w)).
    { unfold Tokens.match_token, Tokens.match_delimited,
        Tokens.match_nonspace.
      rewrite (span_all _ w Hgt), (span_all _ w Hsq).
      cbn [Str.span]. rewrite (span_all _ w Hsp).
      clear - Hopn. destruct Hopn; subst opn; destruct w; reflexivity. }
    rewrite Hm. f_equal. apply findall_from_skip. cbn. lia. }
  assert (Hclean : clean token = w).
  { unfold clean, token. cbn [Str.filter].
    replace (Chars.is_word opn || Chars.is_space opn) with false
      by (destruct Hopn; subst opn; reflexivity).
    apply filter_all. apply (forallb_impl Chars.is_word); [|exact Hw].
    intros c Hc. now rewrite Hc. }
  assert (Htok : parse_token 0 parser_init token
                 = {| words := [w]; tags := [];
                      current_word_idx := 1; current_para_idx := 0 |}).
  { unfold parse_token. rewrite Hclean.
    assert (E1 : Str.ends_with ">" token = false).
    { apply ends_with_without. unfold token, without. cbn [Str.forallb].
      rewrite Hgt. destruct Hopn; subst opn; reflexivity. }
    assert (E2 : Str.ends_with "]" token = false).
    { apply ends_with_without. unfold token, without. cbn [Str.forallb].
      rewrite Hsq. destruct Hopn; subst opn; reflexivity. }
    rewrite E1, E2, !andb_false_r.
    destruct w; [contradiction|reflexivity]. }
  unfold parse_annotated_text, parse_state. rewrite Hline.
  cbn [parse_lines]. unfold parse_line.
  replace (Str.is_blank token && (0 <? 0)) with false
    by (now rewrite andb_false_r).
  rewrite !Hf. cbn [fold_left]. rewrite !Htok. reflexivity.
Qed.

Lemma unterminated_bracket_becomes_word_witness :
  parse_annotated_text "<happy" = (["happy"], [mkTag 1 image_auto_tag 0 0 0])
  /\ parse_annotated_text "[lake" = (["lake"], [mkTag 1 image_auto_tag 0 0 0]).
Proof.
  split.
  - apply (unterminated_bracket_becomes_word "<" "happy");
      [now left|discriminate|reflexivity].
  - apply (unterminated_bracket_becomes_word "[" "lake");
      [now right|discriminate|reflexivity].
Defined.

Lemma tokens_of_a_line_witness :
  Tokens.findall ("   " ++ String (ascii_of_nat 9) "") = [].
Proof.
  apply (tokens_of_a_line ("   " ++ String (ascii_of_nat 9) "")).
  reflexivity.
Defined.
